(** * nest-neo4j: record normalizer, null-collection cleanup, bootstrap,
      multi-statement transactions and the HTTP error filter

    A shallow embedding of [src/neo4j.service.ts] (Neo4jService), of
    [createDriver] and [Neo4jErrorFilter] as found in [src/index.ts], and
    of [src/interfaces/neo4j-config.interface.ts].  Line numbers are those
    of these files.

    JavaScript values are trees: arrays are lists, objects are association
    lists with distinct keys, kept in insertion order (the engine's rule
    that integer-like keys are enumerated first is not modelled; nothing
    below depends on the order of enumeration).  The functions that mutate
    their argument in place ([convertValues] on plain objects,
    [removeEmptyArrays], which also returns its argument) are given as
    functions from the structure before the call to the structure after it.
    The values the driver hands out are freshly decoded and share nothing,
    so no aliasing is modelled.  neo4j-driver itself is not part of the
    repository: its classes are modelled as far as the code uses them. *)

From Stdlib Require Import ZArith List String Ascii Bool Lia Arith.
From Stdlib Require Import DecimalString DecimalZ DecimalNat.
Import ListNotations.
Local Open Scope string_scope.
Local Open Scope list_scope.
Local Open Scope Z_scope.

(** ** Results of fallible code *)

Inductive exn : Type :=
| TypeError                       (* property read or call on null/undefined *)
| Neo4jError (message : string).  (* raised by the driver *)

Inductive outcome (A : Type) : Type :=
| Ok (a : A)
| Throw (e : exn).
Arguments Ok {A} a.
Arguments Throw {A} e.

Definition bind {A B} (m : outcome A) (k : A -> outcome B) : outcome B :=
  match m with
  | Ok a => k a
  | Throw e => Throw e
  end.

Notation "x <- m ;; k" := (bind m (fun x => k))
  (at level 61, m at next level, right associativity).

(** ** The driver's 64-bit Integer (neo4j-driver-core, integer.ts)

    Two signed 32-bit words.  [toNumber] is
    [this.high * TWO_PWR_32_DBL + (this.low >>> 0)]; the driver computes it
    in doubles, here it is computed in Z.  On the safe range, where the
    normalizer calls it, the two agree: every step is exact
    ([IntegerFacts.toNumber_exact]). *)

Module Integer.

Record t : Type := mk { low : Z; high : Z }.

Definition int32 (z : Z) : Prop := - 2 ^ 31 <= z < 2 ^ 31.
Definition wf (i : t) : Prop := int32 (low i) /\ int32 (high i).

(** [z | 0] and [z >>> 0] *)
Definition to_int32 (z : Z) : Z := (z + 2 ^ 31) mod 2 ^ 32 - 2 ^ 31.
Definition to_uint32 (z : Z) : Z := z mod 2 ^ 32.

Definition fromBits (lowBits highBits : Z) : t :=
  {| low := to_int32 lowBits; high := to_int32 highBits |}.

Definition TWO_PWR_32_DBL : Z := 2 ^ 32.

Definition toNumber (i : t) : Z :=
  high i * TWO_PWR_32_DBL + to_uint32 (low i).

(** The integer an [Integer] denotes: its 64 bits read in two's
    complement. *)
Definition unsigned (i : t) : Z :=
  to_uint32 (high i) * 2 ^ 32 + to_uint32 (low i).
Definition signed (i : t) : Z :=
  let u := unsigned i in if u <? 2 ^ 63 then u else u - 2 ^ 64.

(** The integer with the given value modulo 2^64. *)
Definition of_Z (z : Z) : t := fromBits (z mod 2 ^ 32) (z / 2 ^ 32).

Definition equals (a b : t) : bool :=
  (high a =? high b) && (low a =? low b).
Definition isNegative (a : t) : bool := high a <? 0.
Definition negate (a : t) : t := of_Z (- signed a).
Definition add (a b : t) : t := of_Z (signed a + signed b).
Definition subtract (a b : t) : t := add a (negate b).

(** -1, 0 or 1 *)
Definition sign_of (c : comparison) : Z :=
  match c with Lt => -1 | Eq => 0 | Gt => 1 end.

Definition compare (a b : t) : Z :=
  if equals a b then 0
  else
    let thisNeg := isNegative a in
    let otherNeg := isNegative b in
    if thisNeg && negb otherNeg then -1
    else if negb thisNeg && otherNeg then 1
    else if isNegative (subtract a b) then -1 else 1.

Definition lessThanOrEqual (a b : t) : bool := compare a b <=? 0.
Definition greaterThanOrEqual (a b : t) : bool := compare a b >=? 0.

(** [fromBits(0xffffffff | 0, 0x1fffff | 0)] and
    [fromBits(0x1 | 0, 0xffe00000 | 0)] *)
Definition MAX_SAFE_VALUE : t := fromBits 4294967295 2097151.
Definition MIN_SAFE_VALUE : t := fromBits 1 4292870144.

Definition inSafeRange (i : t) : bool :=
  greaterThanOrEqual i MIN_SAFE_VALUE && lessThanOrEqual i MAX_SAFE_VALUE.

(** [toString()] in radix 10: the decimal numeral of the value, with a
    leading minus sign when negative. *)
Definition toString (i : t) : string :=
  NilZero.string_of_int (Z.to_int (signed i)).

(** Reading a decimal numeral back. *)
Definition parse (s : string) : option Z :=
  option_map Z.of_int (NilZero.int_of_string s).

End Integer.

(** [Number.MAX_SAFE_INTEGER] *)
Definition MAX_SAFE_INTEGER : Z := 2 ^ 53 - 1.
Definition MIN_SAFE_INTEGER : Z := - (2 ^ 53 - 1).

(** An integer that a double holds exactly: 53 bits of mantissa times a
    power of two.  An arithmetic operation on doubles whose exact result is
    such a number returns that number. *)
Definition binary64_exact (z : Z) : Prop :=
  exists m e, z = m * 2 ^ e /\ Z.abs m < 2 ^ 53 /\ 0 <= e <= 971.

(** ** JavaScript values *)

(** Doubles.  No arithmetic is done on them here apart from [toNumber]
    above, so a double is kept as what it denotes. *)
Inductive number : Type :=
| NumInt (z : Z)                    (* an integer-valued double *)
| NumFrac (m : Z) (e : positive)    (* m / 2^e, m odd *)
| NumNegZero
| NumNaN
| NumInf (negative : bool).

(** The driver's temporal classes (temporal-types.ts). *)
Inductive Temporal : Type :=
| Date (year month day : Z)
| DateTime (year month day hour minute second nanosecond : Z)
           (timeZoneOffsetSeconds : option Z) (timeZoneId : option string)
| LocalTime (hour minute second nanosecond : Z)
| LocalDateTime (year month day hour minute second nanosecond : Z)
| Time (hour minute second nanosecond timeZoneOffsetSeconds : Z)
| Duration (months days seconds nanoseconds : Z).

(** The driver's Point (spatial-types.ts); [srid] as line 218 of the service
    reads it, through [toNumber()]; [z] is absent on a 2D point. *)
Record Point : Type := mkPoint {
  srid : Integer.t;
  x : number;
  y : number;
  z : option number
}.

#[warnings="-register-all"]
Inductive value : Type :=
| VNull
| VUndefined
| VBool (b : bool)
| VNum (n : number)
| VStr (s : string)
| VArr (elems : list value)
| VObj (props : list (string * value))
(* driver-native *)
| VInt (i : Integer.t)
| VTemporal (t : Temporal)
| VPoint (p : Point)
| VNode (identity : Integer.t) (labels : list string)
        (properties : list (string * value)) (elementId : string).

(** Induction over the tree, through arrays and property lists. *)
Section value_induction.
Variable P : value -> Prop.
Hypothesis HNull : P VNull.
Hypothesis HUndefined : P VUndefined.
Hypothesis HBool : forall b, P (VBool b).
Hypothesis HNum : forall n, P (VNum n).
Hypothesis HStr : forall s, P (VStr s).
Hypothesis HArr : forall elems, Forall P elems -> P (VArr elems).
Hypothesis HObj :
  forall props, Forall (fun kv => P (snd kv)) props -> P (VObj props).
Hypothesis HInt : forall i, P (VInt i).
Hypothesis HTemporal : forall t, P (VTemporal t).
Hypothesis HPoint : forall p, P (VPoint p).
Hypothesis HNode :
  forall identity labels properties elementId,
    Forall (fun kv => P (snd kv)) properties ->
    P (VNode identity labels properties elementId).

Fixpoint value_ind' (v : value) : P v :=
  let fix elems_ind (l : list value) : Forall P l :=
    match l with
    | [] => Forall_nil _
    | e :: l' => Forall_cons _ (value_ind' e) (elems_ind l')
    end in
  let fix props_ind (l : list (string * value))
      : Forall (fun kv => P (snd kv)) l :=
    match l with
    | [] => Forall_nil _
    | kv :: l' =>
        Forall_cons (P := fun kv => P (snd kv)) kv
          (value_ind' (snd kv)) (props_ind l')
    end in
  match v with
  | VNull => HNull
  | VUndefined => HUndefined
  | VBool b => HBool b
  | VNum n => HNum n
  | VStr s => HStr s
  | VArr elems => HArr elems (elems_ind elems)
  | VObj props => HObj props (props_ind props)
  | VInt i => HInt i
  | VTemporal t => HTemporal t
  | VPoint p => HPoint p
  | VNode identity labels properties elementId =>
      HNode identity labels properties elementId (props_ind properties)
  end.
End value_induction.

(** *** Objects as ordered property lists *)

Fixpoint lookup (key : string) (props : list (string * value)) : option value :=
  match props with
  | [] => None
  | (k, v) :: rest => if String.eqb k key then Some v else lookup key rest
  end.

(** [obj[key] = v]: overwrite in place, or append a new property. *)
Fixpoint set_prop (props : list (string * value)) (key : string) (v : value)
  : list (string * value) :=
  match props with
  | [] => [(key, v)]
  | (k, w) :: rest =>
      if String.eqb k key then (k, v) :: rest
      else (k, w) :: set_prop rest key v
  end.

Definition keys_of (props : list (string * value)) : list string :=
  map fst props.

(** *** Type tests *)

Definition is_null (v : value) : bool :=
  match v with VNull => true | _ => false end.
Definition isArray (v : value) : bool :=
  match v with VArr _ => true | _ => false end.
Definition isInt (v : value) : bool :=
  match v with VInt _ => true | _ => false end.
Definition isDate (v : value) : bool :=
  match v with VTemporal (Date _ _ _) => true | _ => false end.
Definition isDateTime (v : value) : bool :=
  match v with VTemporal (DateTime _ _ _ _ _ _ _ _ _) => true | _ => false end.
Definition isLocalTime (v : value) : bool :=
  match v with VTemporal (LocalTime _ _ _ _) => true | _ => false end.
Definition isLocalDateTime (v : value) : bool :=
  match v with VTemporal (LocalDateTime _ _ _ _ _ _ _) => true | _ => false end.
Definition isTime (v : value) : bool :=
  match v with VTemporal (Time _ _ _ _ _) => true | _ => false end.
Definition isDuration (v : value) : bool :=
  match v with VTemporal (Duration _ _ _ _) => true | _ => false end.
Definition isPoint (v : value) : bool :=
  match v with VPoint _ => true | _ => false end.

(** Truthiness ([!x], [x && ...]). *)
Definition truthy (v : value) : bool :=
  match v with
  | VNull | VUndefined => false
  | VBool b => b
  | VNum (NumInt z) => negb (z =? 0)
  | VNum NumNegZero | VNum NumNaN => false
  | VNum _ => true
  | VStr s => negb (String.eqb s EmptyString)
  | _ => true
  end.

(** The [toString()] methods of the driver's temporal and spatial classes,
    used as given. *)
Class DriverText : Type := {
  Temporal_toString : Temporal -> string;
  Point_toString : Point -> string
}.

(** ** The normalizer: [convertValues] and [extractRecords] *)

Definition optional (z : option number) : value :=
  match z with Some n => VNum n | None => VUndefined end.

(** The object literal [{ x: value.x, y: value.y, z: value.z }]. *)
Definition xyz (p : Point) : value :=
  VObj [("x", VNum (x p)); ("y", VNum (y p)); ("z", optional (z p))].

(** The body of the [// Spatial] branch (lines 217-228).  In the default
    case the source calls [convertValues] on the literal [xyz p]; its three
    values are numbers or undefined, which the last line of [convertValues]
    returns as they are, so the call gives the literal back (see
    [convertValues_xyz]). *)
Definition convertPoint (p : Point) : value :=
  let n := Integer.toNumber (srid p) in
  if n =? 4326 then
    VObj [("longitude", VNum (y p)); ("latitude", VNum (x p))]
  else if n =? 4979 then
    VObj [("longitude", VNum (y p)); ("latitude", VNum (x p));
          ("height", optional (z p))]
  else xyz p.

Section Normalizer.
Context {driver : DriverText}.

Fixpoint convertValues (v : value) : value :=
  if is_null v then v
  else if isInt v then
    (* neo4j integers *)
    match v with
    | VInt i =>
        if Integer.inSafeRange i then VNum (NumInt (Integer.toNumber i))
        else VStr (Integer.toString i)
    | _ => v
    end
  else if isDate v || isDateTime v || isLocalTime v
          || isLocalDateTime v || isTime v || isDuration v
          || isPoint v then
    (* neo4j date, time, etc.: value.toString() *)
    match v with
    | VTemporal t => VStr (Temporal_toString t)
    | VPoint p => VStr (Point_toString p)
    | _ => v
    end
  else if isPoint v then
    (* Spatial *)
    match v with
    | VPoint p => convertPoint p
    | _ => v
    end
  else
    match v with
    (* neo4j Node object: value = value.properties, then the object case *)
    | VNode _ _ properties _ =>
        VObj (map (fun kv => (fst kv, convertValues (snd kv))) properties)
    (* recursive array *)
    | VArr elems => VArr (map convertValues elems)
    (* recursive object *)
    | VObj props =>
        VObj (map (fun kv => (fst kv, convertValues (snd kv))) props)
    | _ => v
    end.

End Normalizer.

(** *** Driver records (record.ts)

    [keys] and [_fields] side by side; [get(key)] looks the key up in the
    table built from [keys] (a later duplicate overwrites an earlier one) and
    raises when there is no such key or no field at that index. *)

Record IRecord : Type := mkRecord {
  keys : list string;
  _fields : list value
}.

Fixpoint generateFieldLookup (ks : list string) (i : nat) (key : string)
  : option nat :=
  match ks with
  | [] => None
  | k :: rest =>
      match generateFieldLookup rest (S i) key with
      | Some j => Some j
      | None => if String.eqb k key then Some i else None
      end
  end.

Definition Record_get (record : IRecord) (key : string) : outcome value :=
  match generateFieldLookup (keys record) 0 key with
  | None => Throw (Neo4jError "This record has no field with key")
  | Some index =>
      match nth_error (_fields record) index with
      | Some v => Ok v
      | None => Throw (Neo4jError "This record has no field with index")
      end
  end.

(** The argument of [extractRecords]: declared [IRecord[]], at run time any
    value. *)
Inductive data : Type :=
| Records (records : list IRecord)
| Other (v : value).

(** [data.map] over the elements, stopping at the first that throws. *)
Definition map_outcome {A B} (f : A -> outcome B)
  : list A -> outcome (list B) :=
  fix go (l : list A) : outcome (list B) :=
    match l with
    | [] => Ok []
    | a :: rest =>
        b <- f a ;;
        bs <- go rest ;;
        Ok (b :: bs)
    end.

Section Extract.
Context {driver : DriverText}.

(** Lines 178-186 on one record:
    [obj = {}; record.keys.forEach((key) => {
       obj[key] = this.convertValues(record.get(key)); })] *)
Definition extractRecord (record : IRecord) : outcome value :=
  obj <- fold_left
           (fun acc key =>
              obj <- acc ;;
              v <- Record_get record key ;;
              Ok (set_prop obj key (convertValues v)))
           (keys record) (Ok []) ;;
  Ok (VObj obj).

(** The same callback on an array element that is no driver record: reading
    [record.keys.forEach] succeeds only on an object whose own [keys] is an
    array, and the callback's [record.get(key)] is then a call of something
    that is not a function, so only an empty [keys] gets through. *)
Definition extractNonRecord (record : value) : outcome value :=
  match record with
  | VObj props =>
      match lookup "keys" props with
      | Some (VArr []) => Ok (VObj [])
      | _ => Throw TypeError
      end
  | _ => Throw TypeError
  end.

Definition extractRecords (d : data) : outcome value :=
  match d with
  | Records records =>
      (* an array is truthy and passes Array.isArray *)
      objs <- map_outcome extractRecord records ;;
      Ok (VArr objs)
  | Other v =>
      if negb (truthy v) then Ok (VArr [])
      else if negb (isArray v) then Ok v
      else
        match v with
        | VArr elems =>
            objs <- map_outcome extractNonRecord elems ;;
            Ok (VArr objs)
        | _ => Ok v
        end
  end.

End Extract.

(** *** What counts as plain data *)

(** No driver-native value at any depth. *)
Fixpoint driver_free (v : value) : bool :=
  match v with
  | VNull | VUndefined | VBool _ | VNum _ | VStr _ => true
  | VArr elems => forallb driver_free elems
  | VObj props => forallb (fun kv => driver_free (snd kv)) props
  | VInt _ | VTemporal _ | VPoint _ | VNode _ _ _ _ => false
  end.

(** null, a number, a string, a boolean, or a nested array or object of
    such values. *)
Fixpoint plain (v : value) : bool :=
  match v with
  | VNull | VBool _ | VNum _ | VStr _ => true
  | VArr elems => forallb plain elems
  | VObj props => forallb (fun kv => plain (snd kv)) props
  | VUndefined | VInt _ | VTemporal _ | VPoint _ | VNode _ _ _ _ => false
  end.

(** The value grammar of a raw result record: null, driver integers,
    temporal values, spatial points, nodes, arrays, plain objects and the
    scalars (strings, numbers, booleans); [undefined] is no database value. *)
Fixpoint raw_value (v : value) : bool :=
  match v with
  | VUndefined => false
  | VArr elems => forallb raw_value elems
  | VObj props => forallb (fun kv => raw_value (snd kv)) props
  | VNode _ _ properties _ => forallb (fun kv => raw_value (snd kv)) properties
  | _ => true
  end.

Definition raw_record (r : IRecord) : bool := forallb raw_value (_fields r).



(** A stand-in for the driver's printers, to run the normalizer on concrete
    values: numerals without padding, a point by its reference system. *)
Definition show_Z (z : Z) : string := NilZero.string_of_int (Z.to_int z).

#[export] Instance sample_driver : DriverText := {|
  Temporal_toString t :=
    match t with
    | Date y m d => show_Z y ++ "-" ++ show_Z m ++ "-" ++ show_Z d
    | LocalTime h m s _ => show_Z h ++ ":" ++ show_Z m ++ ":" ++ show_Z s
    | Time h m s _ _ => show_Z h ++ ":" ++ show_Z m ++ ":" ++ show_Z s ++ "Z"
    | LocalDateTime y mo d h mi s _ | DateTime y mo d h mi s _ _ _ =>
        show_Z y ++ "-" ++ show_Z mo ++ "-" ++ show_Z d ++ "T" ++
        show_Z h ++ ":" ++ show_Z mi ++ ":" ++ show_Z s
    | Duration mo d s _ =>
        "P" ++ show_Z mo ++ "M" ++ show_Z d ++ "DT" ++ show_Z s ++ "S"
    end%string;
  Point_toString p := ("Point{srid=" ++ Integer.toString (srid p) ++ "}")%string
|}.


(** One record with a value of every kind, nested five levels deep. *)
Definition sample_records : list IRecord :=
  [ {| keys := ["n"; "when"; "where"; "who"; "deep"; "name"];
       _fields :=
         [ VInt (Integer.mk 7 0);
           VTemporal (Date 2020 1 2);
           VPoint (mkPoint (Integer.mk 4326 0) (NumInt 1) (NumInt 2) None);
           VNode (Integer.mk 1 0) ["Person"]
                 [("age", VInt (Integer.mk 0 2097152)); ("tags", VArr [VNull])]
                 "4:abc:1";
           VArr [VObj [("a", VArr [VObj [("b", VArr
                   [VInt (Integer.mk 3 0);
                    VTemporal (Duration 1 2 3 4)])]])]];
           VStr "Alex" ] |} ].


(** ** Property access on any value

    Arrays and strings carry their elements under the index keys ["0"],
    ["1"], ...; the driver's classes carry their fields.  Properties found
    only on a prototype (methods) are neither arrays nor null and read here
    as undefined. *)

Definition index_key (i : nat) : string :=
  NilEmpty.string_of_uint (Nat.to_uint i).

Fixpoint indexed_from (i : nat) (elems : list value)
  : list (string * value) :=
  match elems with
  | [] => []
  | e :: rest => (index_key i, e) :: indexed_from (S i) rest
  end.

Definition indexed (elems : list value) : list (string * value) :=
  indexed_from 0 elems.

Definition chars (s : string) : list value :=
  map (fun c => VStr (String c EmptyString)) (list_ascii_of_string s).

Definition int_num (z : Z) : value := VNum (NumInt z).

Definition optional_int (z : option Z) : value :=
  match z with Some n => int_num n | None => VUndefined end.

Definition optional_str (s : option string) : value :=
  match s with Some n => VStr n | None => VUndefined end.

Definition Temporal_props (t : Temporal) : list (string * value) :=
  match t with
  | Date y m d =>
      [("year", int_num y); ("month", int_num m); ("day", int_num d)]
  | DateTime y mo d h mi s n off id =>
      [("year", int_num y); ("month", int_num mo); ("day", int_num d);
       ("hour", int_num h); ("minute", int_num mi); ("second", int_num s);
       ("nanosecond", int_num n);
       ("timeZoneOffsetSeconds", optional_int off);
       ("timeZoneId", optional_str id)]
  | LocalTime h mi s n =>
      [("hour", int_num h); ("minute", int_num mi); ("second", int_num s);
       ("nanosecond", int_num n)]
  | LocalDateTime y mo d h mi s n =>
      [("year", int_num y); ("month", int_num mo); ("day", int_num d);
       ("hour", int_num h); ("minute", int_num mi); ("second", int_num s);
       ("nanosecond", int_num n)]
  | Time h mi s n off =>
      [("hour", int_num h); ("minute", int_num mi); ("second", int_num s);
       ("nanosecond", int_num n); ("timeZoneOffsetSeconds", int_num off)]
  | Duration mo d s n =>
      [("months", int_num mo); ("days", int_num d); ("seconds", int_num s);
       ("nanoseconds", int_num n)]
  end.

(** Own enumerable properties, in [for ... in] order. *)
Definition own_props (v : value) : list (string * value) :=
  match v with
  | VObj props => props
  | VArr elems => indexed elems
  | VStr s => indexed (chars s)
  | VInt i =>
      [("low", int_num (Integer.low i)); ("high", int_num (Integer.high i))]
  | VTemporal t => Temporal_props t
  | VPoint p =>
      [("srid", VInt (srid p)); ("x", VNum (x p)); ("y", VNum (y p));
       ("z", optional (z p))]
  | VNode identity labels properties elementId =>
      [("identity", VInt identity); ("labels", VArr (map VStr labels));
       ("properties", VObj properties); ("elementId", VStr elementId)]
  | VNull | VUndefined | VBool _ | VNum _ => []
  end.

Definition own_keys (v : value) : list string := keys_of (own_props v).

(** [v[key]] on a value that is neither null nor undefined. *)
Definition get_prop (v : value) (key : string) : value :=
  match lookup key (own_props v) with
  | Some w => w
  | None =>
      match v with
      | VArr elems =>
          if String.eqb key "length"
          then int_num (Z.of_nat (List.length elems)) else VUndefined
      | VStr s =>
          if String.eqb key "length"
          then int_num (Z.of_nat (String.length s)) else VUndefined
      | _ => VUndefined
      end
  end.

(** [v[key]] in general: a TypeError on null and undefined. *)
Definition read_prop (v : value) (key : string) : outcome value :=
  match v with
  | VNull | VUndefined => Throw TypeError
  | _ => Ok (get_prop v key)
  end.

Fixpoint update_index (key : string) (w : value) (i : nat) (elems : list value)
  : list value :=
  match elems with
  | [] => []
  | e :: rest =>
      if String.eqb (index_key i) key then w :: rest
      else e :: update_index key w (S i) rest
  end.

(** [v[key] = w] for an own property that is already there.  On the
    driver's classes it is only ever reached for a Node's [labels], written
    back as they were read. *)
Definition assign (v : value) (key : string) (w : value) : value :=
  match v with
  | VObj props => VObj (set_prop props key w)
  | VArr elems => VArr (update_index key w 0 elems)
  | _ => v
  end.

(** ** [removeEmptyArrays] (lines 263-287) *)

(** The test of lines 269-274 on [data[i]]:
    [data[i][arrayKey] && Array.isArray(data[i][arrayKey]) &&
     data[i][arrayKey][0]], then [data[i][arrayKey][0][checkKey] === null]. *)
Definition null_first (record : value) (arrayKey checkKey : string) : bool :=
  let a := get_prop record arrayKey in
  truthy a && isArray a && truthy (get_prop a "0")
  && is_null (get_prop (get_prop a "0") checkKey).

(** The body of the [for ... in] loop of lines 279-283 for one [key], with
    [recurse] for the recursive call
    [this.removeEmptyArrays(_, arrayKey, checkKey)].  The nested array is
    mutated in place by the call; here its new contents are stored back. *)
Definition for_in_step (recurse : list value -> outcome (list value))
    (acc : outcome value) (key : string) : outcome value :=
  record <- acc ;;
  match get_prop record key with
  | VArr elems =>
      elems' <- recurse elems ;;
      Ok (assign record key (VArr elems'))
  | _ => Ok record
  end.

(** One iteration of the loop over [i] (lines 269-283). *)
Definition loop_body (recurse : list value -> outcome (list value))
    (arrayKey checkKey : string) (record : value) : outcome value :=
  _ <- read_prop record arrayKey ;;
  let record :=
    if null_first record arrayKey checkKey
    then assign record arrayKey (VArr [])
    else record in
  fold_left (for_in_step recurse) (own_keys record) (Ok record).

(** What the [for ... in] loop does with one property: an emptied
    [arrayKey] holds nothing to descend into, any other array is descended
    into, everything else is left alone. *)
Definition visit (recurse : list value -> outcome (list value))
    (emptied : bool) (v : value) : outcome value :=
  if emptied then Ok (VArr [])
  else
    match v with
    | VArr elems => elems' <- recurse elems ;; Ok (VArr elems')
    | _ => Ok v
    end.

Definition map_outcome_i {A B} (f : nat -> A -> outcome B)
  : nat -> list A -> outcome (list B) :=
  fix go (i : nat) (l : list A) {struct l} : outcome (list B) :=
    match l with
    | [] => Ok []
    | a :: rest =>
        b <- f i a ;;
        bs <- go (S i) rest ;;
        Ok (b :: bs)
    end.

(** The function itself, by recursion on the nesting of arrays:
    [removeEmptyArrays_at] is the iteration of the loop on one [data[i]],
    [removeEmptyArrays] runs it over [data] from the first element on.  It
    is the loop of the source: [removeEmptyArrays_loop] below shows that the
    iteration is [loop_body] called on [removeEmptyArrays].  Strings,
    numbers, booleans and the driver's classes have no own array to empty or
    to descend into except a Node's [labels], an array of strings, which
    stays as it is. *)
Fixpoint removeEmptyArrays_at (arrayKey checkKey : string) (record : value)
  : outcome value :=
  match record with
  | VNull | VUndefined => Throw TypeError
  | VObj props =>
      let emptied := null_first record arrayKey checkKey in
      props' <- map_outcome
                  (fun kv =>
                     w <- visit
                            (map_outcome (removeEmptyArrays_at arrayKey checkKey))
                            (emptied && String.eqb (fst kv) arrayKey)
                            (snd kv) ;;
                     Ok (fst kv, w))
                  props ;;
      Ok (VObj props')
  | VArr elems =>
      let emptied := null_first record arrayKey checkKey in
      elems' <- map_outcome_i
                  (fun i e =>
                     visit
                       (map_outcome (removeEmptyArrays_at arrayKey checkKey))
                       (emptied && String.eqb (index_key i) arrayKey) e)
                  0%nat elems ;;
      Ok (VArr elems')
  | _ => Ok record
  end.

Definition removeEmptyArrays (arrayKey checkKey : string) (data : list value)
  : outcome (list value) :=
  map_outcome (removeEmptyArrays_at arrayKey checkKey) data.

(** *** The collapse as the specification words it *)

(** "the key field of v", when v has such a field *)
Definition field (v : value) (key : string) : option value :=
  lookup key (own_props v).

(** "a non-empty array whose first element's checkKey field is exactly
    null" *)
Definition null_collection (checkKey : string) (v : value) : bool :=
  match v with
  | VArr (first :: _) =>
      match field first checkKey with
      | Some VNull => true
      | _ => false
      end
  | _ => false
  end.

Definition map_i {A B} (f : nat -> A -> B) : nat -> list A -> list B :=
  fix go (i : nat) (l : list A) {struct l} : list B :=
    match l with
    | [] => []
    | a :: rest => f i a :: go (S i) rest
    end.

(** "if record[arrayKey] is [such an array], replace record[arrayKey] with
    an empty array; then apply the same collapse to every field of the
    record that is itself an array" *)
Fixpoint collapse_record (arrayKey checkKey : string) (record : value)
  : value :=
  let emptied :=
    match field record arrayKey with
    | Some a => null_collection checkKey a
    | None => false
    end in
  let collapse_field (key : string) (v : value) : value :=
    if emptied && String.eqb key arrayKey then VArr []
    else
      match v with
      | VArr elems => VArr (map (collapse_record arrayKey checkKey) elems)
      | _ => v
      end in
  match record with
  | VObj props =>
      VObj (map (fun kv => (fst kv, collapse_field (fst kv) (snd kv))) props)
  | VArr elems =>
      VArr (map_i (fun i e => collapse_field (index_key i) e) 0%nat elems)
  | _ => record
  end.

Definition collapseNullCollections (arrayKey checkKey : string)
    (records : list value) : list value :=
  map (collapse_record arrayKey checkKey) records.

(** No array, at any depth, has a null or undefined element. *)
Definition nullish (v : value) : bool :=
  match v with VNull | VUndefined => true | _ => false end.


(** Scalars and the driver's integers, temporal values and points own no
    array. *)
Definition no_own_array (v : value) : Prop :=
  match v with
  | VArr _ | VObj _ | VNode _ _ _ _ => False
  | _ => True
  end.

Definition alex_with_no_friends : list value :=
  [VObj [("name", VStr "Alex");
         ("address", VObj [("ZIP", VStr "10178"); ("town", VStr "Berlin")]);
         ("friends", VArr [VObj [("address", VNull); ("name", VNull)]])]].


(** The loop of lines 242-244 on a plain object,
    [for (const key of Object.keys(value)) value[key] = convert(value[key])];
    in [convertValues] it is written as a map over the properties
    ([object_loop_map] below). *)
Definition object_loop (convert : value -> value)
    (props : list (string * value)) : list (string * value) :=
  fold_left
    (fun obj key => set_prop obj key (convert (get_prop (VObj obj) key)))
    (keys_of props) props.

(** ** The bootstrap: [createDriver] *)

Inductive Neo4jScheme : Type :=
| neo4j | neo4j_s | neo4j_scc | bolt | bolt_s | bolt_scc.

Record Neo4jConfig : Type := mkConfig {
  scheme : Neo4jScheme;
  host : string;
  port : Z;
  username : string;
  password : string;
  database : option string;
  options : option (list (string * value));
  verifyConnectionTimeout : option Z
}.

(** [Object.assign(target, source)]: every own property of [source], in
    order, is written on [target]. *)
Definition Object_assign (target source : list (string * value))
  : list (string * value) :=
  fold_left (fun t kv => set_prop t (fst kv) (snd kv)) source target.

(** Lines 21-24: [Object.assign({ disableLosslessIntegers: true },
    config.options || {})]. *)
Definition default_options : list (string * value) :=
  [("disableLosslessIntegers", VBool true)].

(** [config.options || {}] *)
Definition supplied_options (config : Neo4jConfig) : list (string * value) :=
  match options config with
  | Some o => o
  | None => []
  end.

Definition driver_options (config : Neo4jConfig) : list (string * value) :=
  Object_assign default_options (supplied_options config).

(** What [driver.verifyConnectivity] does on the attempt started by the
    k-th tick of [timer(0, 5000)]; an attempt settles within its tick. *)
Inductive attempt : Type :=
| Connects
| Fails (reason : exn).

Inductive bootstrap : Type :=
| Resolved (at_ms : Z) (tick : nat)             (* the driver of that tick *)
| Rejected (at_ms : Z) (reason : option exn). (* throwError(() => reason) *)

Definition retry_period : Z := 5000.

(** [timeout({ each: 60000, ... })]: the literal of line 52.  No emission
    precedes the first driver, so the timeout runs from the subscription.
    [config.verifyConnectionTimeout] is not read anywhere. *)
Definition timeout_each (config : Neo4jConfig) : Z := 60000.

(** The ticks in order.  [reason] is the variable of line 25, undefined
    until an attempt has failed; the timeout, armed first, fires before a
    tick due at the same instant. *)
Fixpoint retry (verify : nat -> attempt) (deadline : Z) (k ticks : nat)
    (reason : option exn) : bootstrap :=
  match ticks with
  | O => Rejected deadline reason
  | S ticks' =>
      if deadline <=? retry_period * Z.of_nat k then Rejected deadline reason
      else
        match verify k with
        | Connects => Resolved (retry_period * Z.of_nat k) k
        | Fails e => retry verify deadline (S k) ticks' (Some e)
        end
  end.

Definition createDriver (config : Neo4jConfig) (verify : nat -> attempt)
  : bootstrap :=
  let deadline := timeout_each config in
  retry verify deadline 0 (S (Z.to_nat (deadline / retry_period))) None.

Definition local_config (timeout : option Z) : Neo4jConfig :=
  {| scheme := neo4j; host := "localhost"; port := 7687;
     username := "neo4j"; password := "neo"; database := None;
     options := Some [("disableLosslessIntegers", VBool false);
                      ("maxConnectionPoolSize", VNum (NumInt 10))];
     verifyConnectionTimeout := timeout |}.

Definition refused (k : nat) : exn :=
  Neo4jError ("connection refused, attempt " ++ index_key k).


(** ** The HTTP filter: [Neo4jErrorFilter.catch] *)

(** [s.includes(sub)] *)
Fixpoint includes (s sub : string) : bool :=
  if String.prefix sub s then true
  else
    match s with
    | EmptyString => false
    | String _ rest => includes rest sub
    end.

Definition backtick : ascii := "`"%char.

(** The class [[a-z0-9]] under the flag [i]. *)
Definition is_alnum (c : ascii) : bool :=
  let n := nat_of_ascii c in
  ((48 <=? n) && (n <=? 57) || (65 <=? n) && (n <=? 90)
   || (97 <=? n) && (n <=? 122))%nat.

(** The matches of [/`([a-z0-9]+)`/gi] from left to right.  [run] is
    [Some r] after a backtick followed by the letters and digits [r]: a
    closing backtick then ends a match when [r] is not empty, and anything
    else drops the attempt (a backtick may open the next one). *)
Fixpoint scan (s : string) (run : option string) : list string :=
  match s with
  | EmptyString => []
  | String c rest =>
      match run with
      | None =>
          if Ascii.eqb c backtick then scan rest (Some EmptyString)
          else scan rest None
      | Some r =>
          if is_alnum c then scan rest (Some (r ++ String c EmptyString))
          else if Ascii.eqb c backtick then
            match r with
            | EmptyString => scan rest (Some EmptyString)
            | _ => (String backtick r ++ String backtick EmptyString)
                     :: scan rest None
            end
          else scan rest None
      end
  end%string.

(** [message.match(/`([a-z0-9]+)`/gi)]: null when nothing matches. *)
Definition match_identifiers (message : string) : option (list string) :=
  match scan message None with
  | [] => None
  | found => Some found
  end.

(** [s.replace(/`/g, '')] *)
Fixpoint strip_backticks (s : string) : string :=
  match s with
  | EmptyString => EmptyString
  | String c rest =>
      if Ascii.eqb c backtick then strip_backticks rest
      else String c (strip_backticks rest)
  end.

(** [matches[1].replace(/`/g, '')]: a TypeError when [matches] is null or
    has no second element. *)
Definition second_identifier (message : string) : outcome string :=
  match match_identifiers message with
  | Some (_ :: m :: _) => Ok (strip_backticks m)
  | _ => Throw TypeError
  end.

Record response : Type := mkResponse {
  statusCode : Z;
  message : list string;
  error : string
}.

Definition BAD_REQUEST : Z := 400.
Definition INTERNAL_SERVER_ERROR : Z := 500.

(** [catch(exception, host)]: the body sent with
    [response.status(statusCode).json(...)], from [exception.message]. *)
Definition Neo4jErrorFilter_catch (exception_message : string)
  : outcome response :=
  if includes exception_message "already exists with" then
    id <- second_identifier exception_message ;;
    Ok {| statusCode := BAD_REQUEST;
          message := [(id ++ " already taken")%string];
          error := "Bad Request" |}
  else if includes exception_message "must have the property" then
    id <- second_identifier exception_message ;;
    Ok {| statusCode := BAD_REQUEST;
          message := [(id ++ " should not be empty")%string];
          error := "Bad Request" |}
  else
    Ok {| statusCode := INTERNAL_SERVER_ERROR;
          message := [];
          error := "Internal Server Error" |}.


(** ** Sessions and transactions: [multipleStatementsRaw]

    The driver is used through [session], [beginTransaction], [run],
    [commit], [rollback] and [close].  The server is a parameter: what a
    statement does to the data a transaction sees, and whether it accepts a
    commit.  A transaction works on its own copy; only a commit stores it. *)

Record QueryResult : Type := mkResult { records : list IRecord }.

Record Statement : Type := mkStatement {
  statement : string;
  parameters : list (string * value)
}.

(** The states of the driver's Transaction (transaction.ts). *)
Inductive tx_state : Type := ACTIVE | FAILED | SUCCEEDED | ROLLED_BACK.

Inductive event : Type :=
| SessionOpened
| TxBegun
| Ran (s : Statement)
| Committed
| RolledBack
| SessionClosed.

Section Driver.
Variable DB : Type.
Variable execute : Statement -> DB -> exn + (QueryResult * DB).
Variable commit_error : DB -> option exn.

Record world : Type := mkWorld {
  stored : DB;             (* what the database holds *)
  pending : DB;            (* what the open transaction sees *)
  tx : option tx_state;
  closes : nat;            (* calls of session.close() *)
  trace : list event
}.

(** Code that may throw, on the driver's state. *)
Definition M (A : Type) : Type := world -> outcome A * world.

Definition ret {A} (a : A) : M A := fun w => (Ok a, w).
Definition throw {A} (e : exn) : M A := fun w => (Throw e, w).
Definition bindM {A B} (m : M A) (k : A -> M B) : M B :=
  fun w =>
    match m w with
    | (Ok a, w') => k a w'
    | (Throw e, w') => (Throw e, w')
    end.

(** [try { body } catch (e) { handler } finally { finalizer }] *)
Definition try_catch_finally {A} (body : M A) (handler : exn -> M A)
    (finalizer : M unit) : M A :=
  fun w =>
    let (r, w1) := body w in
    let (r', w2) :=
      match r with
      | Ok a => (Ok a, w1)
      | Throw e => handler e w1
      end in
    match finalizer w2 with
    | (Ok _, w3) => (r', w3)
    | (Throw e, w3) => (Throw e, w3)
    end.

Definition log (ev : event) (w : world) : list event := trace w ++ [ev].

(** [this.getWriteSession()] *)
Definition getWriteSession : M unit :=
  fun w =>
    (Ok tt, mkWorld (stored w) (pending w) (tx w) (closes w)
                    (log SessionOpened w)).

(** [session.beginTransaction()] *)
Definition beginTransaction : M unit :=
  fun w =>
    (Ok tt, mkWorld (stored w) (stored w) (Some ACTIVE) (closes w)
                    (log TxBegun w)).

(** [txc.run(s.statement, s.parameters)]: a failure marks the transaction
    as failed. *)
Definition txc_run (s : Statement) : M QueryResult :=
  fun w =>
    match tx w with
    | Some ACTIVE =>
        match execute s (pending w) with
        | inr (result, db) =>
            (Ok result, mkWorld (stored w) db (tx w) (closes w) (log (Ran s) w))
        | inl e =>
            (Throw e, mkWorld (stored w) (pending w) (Some FAILED) (closes w)
                              (log (Ran s) w))
        end
    | _ => (Throw (Neo4jError "Cannot run query in this transaction"), w)
    end.

(** [txc.commit()] *)
Definition txc_commit : M unit :=
  fun w =>
    match tx w with
    | Some ACTIVE =>
        match commit_error (pending w) with
        | None =>
            (Ok tt, mkWorld (pending w) (pending w) (Some SUCCEEDED) (closes w)
                            (log Committed w))
        | Some e =>
            (Throw e, mkWorld (stored w) (pending w) (Some FAILED) (closes w)
                              (trace w))
        end
    | _ => (Throw (Neo4jError "Cannot commit this transaction"), w)
    end.

(** [txc.rollback()]: drops the pending copy; nothing is left to do on a
    failed transaction; an error once committed or rolled back. *)
Definition txc_rollback : M unit :=
  fun w =>
    match tx w with
    | Some ACTIVE =>
        (Ok tt, mkWorld (stored w) (stored w) (Some ROLLED_BACK) (closes w)
                        (log RolledBack w))
    | Some FAILED =>
        (Ok tt, mkWorld (stored w) (stored w) (Some FAILED) (closes w)
                        (log RolledBack w))
    | _ => (Throw (Neo4jError "Cannot rollback this transaction"), w)
    end.

(** [session.close()]: rolls back a transaction still open. *)
Definition session_close : M unit :=
  fun w =>
    (Ok tt,
     mkWorld (stored w)
             (match tx w with Some ACTIVE => stored w | _ => pending w end)
             (match tx w with Some ACTIVE => Some ROLLED_BACK | t => t end)
             (S (closes w)) (log SessionClosed w)).

(** Lines 141-144: [for (const s of statements)
    { const result = await txc.run(...); results.push(result); }] *)
Fixpoint run_each (statements : list Statement) (results : list QueryResult)
  : M (list QueryResult) :=
  match statements with
  | [] => ret results
  | s :: rest =>
      bindM (txc_run s) (fun result => run_each rest (results ++ [result]))
  end.

Definition multipleStatementsRaw (statements : list Statement)
  : M (list QueryResult) :=
  bindM getWriteSession (fun _ =>
  bindM beginTransaction (fun _ =>
  try_catch_finally
    (bindM (run_each statements []) (fun results =>
     bindM txc_commit (fun _ =>
     ret results)))
    (fun e => bindM txc_rollback (fun _ => throw e))
    session_close)).

Section WithText.
Context {driver : DriverText}.

(** Lines 159-164: [results.map(result => extractRecords(result.records))] *)
Definition multipleStatements (statements : list Statement)
  : M (list value) :=
  bindM (multipleStatementsRaw statements) (fun results =>
  fun w =>
    (map_outcome (fun result => extractRecords (Records (records result)))
                 results, w)).

End WithText.

(** *** The statements one after the other, as the server sees them *)

Fixpoint run_all (statements : list Statement) (db : DB)
  : exn + (list QueryResult * DB) :=
  match statements with
  | [] => inr ([], db)
  | s :: rest =>
      match execute s db with
      | inl e => inl e
      | inr (result, db1) =>
          match run_all rest db1 with
          | inl e => inl e
          | inr (results, db2) => inr (result :: results, db2)
          end
      end
  end.

(** The statements sent: all of them, or up to the first that fails. *)
Fixpoint sent (statements : list Statement) (db : DB) : list Statement :=
  match statements with
  | [] => []
  | s :: rest =>
      match execute s db with
      | inl _ => [s]
      | inr (_, db1) => s :: sent rest db1
      end
  end.

End Driver.

Arguments stored {DB} _.
Arguments pending {DB} _.
Arguments tx {DB} _.
Arguments closes {DB} _.
Arguments trace {DB} _.
Arguments mkWorld {DB} _ _ _ _ _.

(** A toy server for running the code: the database is a list of names,
    ["CREATE x"] adds one and fails on a duplicate. *)
Definition toy_execute (s : Statement) (db : list string)
  : exn + (QueryResult * list string) :=
  if existsb (String.eqb (statement s)) db
  then inl (Neo4jError (statement s ++ " already exists"))
  else inr (mkResult [], db ++ [statement s]).

Definition toy_world (db : list string) : world (list string) :=
  mkWorld db db None 0 [].

Definition stmt (text : string) : Statement := mkStatement text [].


(** *** Notions used to state further properties of [removeEmptyArrays] *)

(** The two ingredients of [collapse_record], named. *)
Definition emptied_of (arrayKey checkKey : string) (record : value) : bool :=
  match field record arrayKey with
  | Some a => null_collection checkKey a
  | None => false
  end.

Definition collapse_field (arrayKey checkKey : string) (emptied : bool)
    (key : string) (v : value) : value :=
  if emptied && String.eqb key arrayKey then VArr []
  else
    match v with
    | VArr elems => VArr (map (collapse_record arrayKey checkKey) elems)
    | _ => v
    end.



(** What may happen to the value of a property: an array stays an array
    (emptied or cleaned inside), anything else stays as it is. *)
Definition field_kept (v v' : value) : Prop :=
  if isArray v then isArray v' = true else v' = v.

(** What may happen to a record: the same properties under the same keys,
    in the same order. *)
Definition record_kept (r r' : value) : Prop :=
  match r with
  | VObj props =>
      exists props',
        r' = VObj props' /\
        Forall2 (fun kv kv' => fst kv' = fst kv /\ field_kept (snd kv) (snd kv'))
                props props'
  | VArr elems =>
      exists elems', r' = VArr elems' /\ Forall2 field_kept elems elems'
  | _ => r' = r
  end.

(** The keys of an object are distinct. *)
Definition distinct_keys (r : value) : Prop :=
  match r with
  | VObj props => NoDup (keys_of props)
  | _ => True
  end.

(** *** Messages that name their identifiers *)

Fixpoint no_backtick (s : string) : bool :=
  match s with
  | EmptyString => true
  | String c rest => negb (Ascii.eqb c backtick) && no_backtick rest
  end.

(** Letters and digits only: what the group [([a-z0-9]+)] takes. *)
Fixpoint all_alnum (s : string) : bool :=
  match s with
  | EmptyString => true
  | String c rest => is_alnum c && all_alnum rest
  end.

(** An identifier between backticks, as Neo4j writes labels and property
    names in its messages. *)
Definition quoted (id : string) : string :=
  String backtick (id ++ String backtick EmptyString)%string.

(** A message whose first two backticks enclose [label] and whose next two
    enclose [property]. *)
Definition two_identifiers (pre label mid property post : string) : string :=
  (pre ++ quoted label ++ mid ++ quoted property ++ post)%string.

Definition bad_request (text : string) : response :=
  {| statusCode := BAD_REQUEST; message := [text]; error := "Bad Request" |}.

Definition internal_server_error : response :=
  {| statusCode := INTERNAL_SERVER_ERROR; message := [];
     error := "Internal Server Error" |}.




(* ================================================================== *)
(** * Properties *)

(** ** Facts about the driver's Integer *)

Module IntegerFacts.
Import Integer.

Lemma to_uint32_cases z :
  int32 z -> to_uint32 z = if z <? 0 then z + 2 ^ 32 else z.
Proof.
  unfold int32, to_uint32; intros Hz.
  destruct (Z.ltb_spec z 0).
  - symmetry; apply Z.mod_unique with (q := -1); lia.
  - apply Z.mod_small; lia.
Qed.

Lemma to_int32_range z : int32 (to_int32 z).
Proof.
  unfold int32, to_int32.
  pose proof (Z.mod_pos_bound (z + 2 ^ 31) (2 ^ 32) ltac:(lia)); lia.
Qed.

Lemma to_uint32_to_int32 z : to_uint32 (to_int32 z) = z mod 2 ^ 32.
Proof.
  unfold to_uint32, to_int32.
  rewrite Zminus_mod_idemp_l.
  replace (z + 2 ^ 31 - 2 ^ 31) with z by lia; reflexivity.
Qed.

Lemma fromBits_wf l h : wf (fromBits l h).
Proof. split; apply to_int32_range. Qed.

Lemma of_Z_wf z : wf (of_Z z).
Proof. apply fromBits_wf. Qed.

Lemma signed_eq i : wf i -> signed i = high i * 2 ^ 32 + to_uint32 (low i).
Proof.
  intros [Hl Hh]; unfold signed, unsigned.
  rewrite (to_uint32_cases (high i) Hh).
  pose proof (to_uint32_cases (low i) Hl) as El.
  unfold int32 in *.
  destruct (Z.ltb_spec (high i) 0);
    destruct (Z.ltb_spec (low i) 0); rewrite El;
    match goal with |- context [?u <? 2 ^ 63] =>
      destruct (Z.ltb_spec u (2 ^ 63)) end; lia.
Qed.

(** [toNumber] returns the value the integer denotes. *)
Lemma toNumber_signed i : wf i -> toNumber i = signed i.
Proof. intros H; rewrite signed_eq by assumption; reflexivity. Qed.

Lemma signed_range i : wf i -> - 2 ^ 63 <= signed i < 2 ^ 63.
Proof.
  intros H; rewrite signed_eq by assumption; destruct H as [Hl Hh].
  rewrite (to_uint32_cases _ Hl); unfold int32 in *.
  destruct (Z.ltb_spec (low i) 0); lia.
Qed.

Lemma isNegative_signed i : wf i -> isNegative i = (signed i <? 0).
Proof.
  intros H; rewrite signed_eq by assumption; destruct H as [Hl Hh].
  rewrite (to_uint32_cases _ Hl); unfold isNegative, int32 in *.
  destruct (Z.ltb_spec (low i) 0);
    destruct (Z.ltb_spec (high i) 0);
    match goal with |- _ = (?u <? 0) => destruct (Z.ltb_spec u 0) end;
    try reflexivity; lia.
Qed.

Lemma signed_inj a b : wf a -> wf b -> signed a = signed b -> a = b.
Proof.
  intros Ha Hb; rewrite !signed_eq by assumption.
  destruct Ha as [Hla Hha], Hb as [Hlb Hhb].
  rewrite (to_uint32_cases _ Hla), (to_uint32_cases _ Hlb).
  destruct a as [la ha], b as [lb hb]; unfold int32 in *; simpl in *.
  intros E.
  assert (ha = hb /\ la = lb) as [-> ->]; [| reflexivity].
  destruct (Z.ltb_spec la 0); destruct (Z.ltb_spec lb 0); lia.
Qed.

Lemma equals_signed a b :
  wf a -> wf b -> equals a b = (signed a =? signed b).
Proof.
  intros Ha Hb.
  destruct (Z.eqb_spec (signed a) (signed b)) as [E | N].
  - apply signed_inj in E; try assumption; subst b.
    unfold equals; rewrite !Z.eqb_refl; reflexivity.
  - unfold equals.
    destruct (Z.eqb_spec (high a) (high b)) as [Eh |]; [| reflexivity].
    destruct (Z.eqb_spec (low a) (low b)) as [El |]; [| reflexivity].
    exfalso; apply N; unfold signed, unsigned; rewrite Eh, El; reflexivity.
Qed.

(** Wrap-around of [of_Z]. *)
Lemma signed_of_Z z : signed (of_Z z) = (z + 2 ^ 63) mod 2 ^ 64 - 2 ^ 63.
Proof.
  unfold signed, unsigned, of_Z, fromBits; cbn [low high].
  rewrite !to_uint32_to_int32.
  rewrite Z.mod_mod by lia.
  assert (E : (z / 2 ^ 32) mod 2 ^ 32 * 2 ^ 32 + z mod 2 ^ 32 = z mod 2 ^ 64).
  { change (2 ^ 64) with (2 ^ 32 * 2 ^ 32).
    rewrite Z.rem_mul_r by lia. lia. }
  rewrite E.
  pose proof (Z.mod_pos_bound z (2 ^ 64) ltac:(lia)).
  destruct (Z.ltb_spec (z mod 2 ^ 64) (2 ^ 63)).
  - symmetry.
    assert ((z + 2 ^ 63) mod 2 ^ 64 = z mod 2 ^ 64 + 2 ^ 63); [| lia].
    symmetry; apply Z.mod_unique with (q := z / 2 ^ 64); [lia |].
    pose proof (Z.div_mod z (2 ^ 64) ltac:(lia)); lia.
  - symmetry.
    assert ((z + 2 ^ 63) mod 2 ^ 64 = z mod 2 ^ 64 - 2 ^ 63); [| lia].
    symmetry; apply Z.mod_unique with (q := z / 2 ^ 64 + 1); [lia |].
    pose proof (Z.div_mod z (2 ^ 64) ltac:(lia)); lia.
Qed.

Lemma signed_of_Z_small z :
  - 2 ^ 63 <= z < 2 ^ 63 -> signed (of_Z z) = z.
Proof.
  intros Hz; rewrite signed_of_Z, Z.mod_small; lia.
Qed.

Lemma signed_subtract a b :
  wf a -> wf b ->
  - 2 ^ 63 <= signed a - signed b < 2 ^ 63 ->
  signed (subtract a b) = signed a - signed b.
Proof.
  intros Ha Hb Hd; unfold subtract, add, negate.
  pose proof (signed_range b Hb) as Rb.
  destruct (Z.eq_dec (signed b) (- 2 ^ 63)) as [E | N].
  - (* negating MIN_VALUE wraps to itself *)
    rewrite E, signed_of_Z.
    rewrite (signed_of_Z (- - 2 ^ 63)).
    change ((- - 2 ^ 63 + 2 ^ 63) mod 2 ^ 64 - 2 ^ 63) with (- 2 ^ 63).
    rewrite E in Hd.
    replace (signed a + - 2 ^ 63 + 2 ^ 63) with (signed a) by lia.
    symmetry.
    pose proof (signed_range a Ha).
    assert (signed a mod 2 ^ 64 = signed a + 2 ^ 64); [| lia].
    symmetry; apply Z.mod_unique with (q := -1); lia.
  - rewrite (signed_of_Z_small (- signed b)) by lia.
    apply signed_of_Z_small; lia.
Qed.

(** The driver's [compare] orders integers by value. *)
Lemma compare_signed a b :
  wf a -> wf b -> compare a b = sign_of (signed a ?= signed b).
Proof.
  intros Ha Hb; unfold compare.
  rewrite (equals_signed a b Ha Hb).
  rewrite (isNegative_signed a Ha), (isNegative_signed b Hb).
  pose proof (signed_range a Ha); pose proof (signed_range b Hb).
  destruct (Z.eqb_spec (signed a) (signed b)) as [E | N].
  - rewrite E, Z.compare_refl; reflexivity.
  - destruct (Z.ltb_spec (signed a) 0); destruct (Z.ltb_spec (signed b) 0);
      simpl.
    + rewrite isNegative_signed by (apply of_Z_wf).
      rewrite signed_subtract by (assumption || lia).
      destruct (Z.ltb_spec (signed a - signed b) 0);
        destruct (Z.compare_spec (signed a) (signed b)); simpl; lia.
    + destruct (Z.compare_spec (signed a) (signed b)); simpl; lia.
    + destruct (Z.compare_spec (signed a) (signed b)); simpl; lia.
    + rewrite isNegative_signed by (apply of_Z_wf).
      rewrite signed_subtract by (assumption || lia).
      destruct (Z.ltb_spec (signed a - signed b) 0);
        destruct (Z.compare_spec (signed a) (signed b)); simpl; lia.
Qed.

Lemma MAX_SAFE_VALUE_signed : signed MAX_SAFE_VALUE = MAX_SAFE_INTEGER.
Proof. reflexivity. Qed.

Lemma MIN_SAFE_VALUE_signed : signed MIN_SAFE_VALUE = MIN_SAFE_INTEGER.
Proof. reflexivity. Qed.

(** [inSafeRange] tests the value against the platform's safe range. *)
Lemma inSafeRange_spec i :
  wf i ->
  inSafeRange i =
  (MIN_SAFE_INTEGER <=? signed i) && (signed i <=? MAX_SAFE_INTEGER).
Proof.
  intros Hi; unfold inSafeRange, greaterThanOrEqual, lessThanOrEqual.
  rewrite !compare_signed by (assumption || apply fromBits_wf).
  rewrite MAX_SAFE_VALUE_signed, MIN_SAFE_VALUE_signed.
  destruct (Z.compare_spec (signed i) MIN_SAFE_INTEGER);
    destruct (Z.compare_spec (signed i) MAX_SAFE_INTEGER);
    destruct (Z.leb_spec MIN_SAFE_INTEGER (signed i));
    destruct (Z.leb_spec (signed i) MAX_SAFE_INTEGER);
    simpl; try reflexivity;
    unfold MIN_SAFE_INTEGER, MAX_SAFE_INTEGER in *; lia.
Qed.

(** On the safe range every step of [toNumber] is exact in doubles: the
    two operands, the product by 2^32 and the sum. *)
Lemma toNumber_exact i :
  wf i ->
  MIN_SAFE_INTEGER <= signed i <= MAX_SAFE_INTEGER ->
  binary64_exact (high i) /\
  binary64_exact (high i * TWO_PWR_32_DBL) /\
  binary64_exact (to_uint32 (low i)) /\
  binary64_exact (toNumber i).
Proof.
  intros Hi Hr; rewrite <- (toNumber_signed i Hi) in Hr.
  destruct Hi as [Hl Hh].
  pose proof (Z.mod_pos_bound (low i) (2 ^ 32) ltac:(lia)) as Hu.
  unfold int32, MIN_SAFE_INTEGER, MAX_SAFE_INTEGER, to_uint32,
    binary64_exact in *.
  repeat split.
  - exists (high i), 0; lia.
  - exists (high i), 32; unfold TWO_PWR_32_DBL; lia.
  - exists (low i mod 2 ^ 32), 0; lia.
  - exists (toNumber i), 0; unfold toNumber, to_uint32 in *; lia.
Qed.

(** The numeral printed by [toString] reads back as the value. *)
Lemma parse_toString i : parse (toString i) = Some (signed i).
Proof.
  unfold parse, toString.
  rewrite NilZero.isi.
  - simpl; f_equal; apply DecimalZ.of_to.
  - destruct (signed i); simpl; try discriminate.
    intros E; injection E as E.
    revert E; apply DecimalPos.Unsigned.to_uint_nonnil.
  - destruct (signed i); simpl; try discriminate.
    intros E; injection E as E.
    revert E; apply DecimalPos.Unsigned.to_uint_nonnil.
Qed.

End IntegerFacts.

(** ** The normalizer *)

Section NormalizerFacts.
Context {driver : DriverText}.

(** The recursive call of line 226 on the literal [{x, y, z}] returns the
    literal: [convertPoint] spells that call out. *)
Lemma convertValues_xyz p : convertValues (xyz p) = xyz p.
Proof. unfold xyz; destruct (z p); reflexivity. Qed.

Lemma convertPoint_is_object p : exists props, convertPoint p = VObj props.
Proof.
  unfold convertPoint, xyz.
  destruct (_ =? 4326); [eexists; reflexivity |].
  destruct (_ =? 4979); eexists; reflexivity.
Qed.

(** C1 (as the code has it): a spatial point never reaches the [// Spatial]
    branch.  [isPoint] is already one of the alternatives of the temporal
    test above it, so every point, whatever its reference system, is turned
    into the text [value.toString()] and not into the longitude/latitude
    mapping that the branch below would build. *)
Theorem convertValues_point_is_text :
  forall p : Point,
    convertValues (VPoint p) = VStr (Point_toString p) /\
    convertValues (VPoint p) <> convertPoint p.
Proof.
  intros p; split; [reflexivity |].
  destruct (convertPoint_is_object p) as [props ->]; discriminate.
Qed.

(** A 2D point of SRID 4326 at x = 1, y = 2: what the branch of lines
    217-228 would build, and what [convertValues] returns. *)
Example point_4326 :
  let p := mkPoint (Integer.mk 4326 0) (NumInt 1) (NumInt 2) None in
  convertPoint p =
    VObj [("longitude", VNum (NumInt 2)); ("latitude", VNum (NumInt 1))] /\
  convertValues (VPoint p) = VStr (Point_toString p).
Proof. split; reflexivity. Qed.

(** C4: a driver integer in the safe range becomes the number it denotes;
    one outside becomes its decimal numeral, which reads back as the same
    integer. *)
Theorem convertValues_integer :
  forall i : Integer.t,
    Integer.wf i ->
    (MIN_SAFE_INTEGER <= Integer.signed i <= MAX_SAFE_INTEGER ->
     convertValues (VInt i) = VNum (NumInt (Integer.signed i))) /\
    (~ (MIN_SAFE_INTEGER <= Integer.signed i <= MAX_SAFE_INTEGER) ->
     convertValues (VInt i) = VStr (Integer.toString i) /\
     Integer.parse (Integer.toString i) = Some (Integer.signed i)).
Proof.
  intros i Hi; cbn [convertValues is_null isInt].
  rewrite (IntegerFacts.inSafeRange_spec i Hi).
  rewrite (IntegerFacts.toNumber_signed i Hi).
  split; intros H.
  - destruct (Z.leb_spec MIN_SAFE_INTEGER (Integer.signed i));
      destruct (Z.leb_spec (Integer.signed i) MAX_SAFE_INTEGER);
      simpl; try reflexivity; lia.
  - split; [| apply IntegerFacts.parse_toString].
    destruct (Z.leb_spec MIN_SAFE_INTEGER (Integer.signed i));
      destruct (Z.leb_spec (Integer.signed i) MAX_SAFE_INTEGER);
      simpl; try reflexivity; lia.
Qed.

End NormalizerFacts.

(** 2^53 - 1 is the last safe integer, 2^53 the first that is printed. *)
Lemma convertValues_integer_witness :
  convertValues (VInt (Integer.mk (-1) 2097151)) =
    VNum (NumInt 9007199254740991) /\
  convertValues (VInt (Integer.mk 0 2097152)) = VStr "9007199254740992" /\
  Integer.parse "9007199254740992" = Some 9007199254740992.
Proof.
  assert (W1 : Integer.wf (Integer.mk (-1) 2097151))
    by (unfold Integer.wf, Integer.int32; simpl; lia).
  assert (W2 : Integer.wf (Integer.mk 0 2097152))
    by (unfold Integer.wf, Integer.int32; simpl; lia).
  split.
  - apply (proj1 (convertValues_integer (Integer.mk (-1) 2097151) W1)).
    vm_compute; split; discriminate.
  - apply (proj2 (convertValues_integer (Integer.mk 0 2097152) W2)).
    vm_compute; intros [_ H]; apply H; reflexivity.
Defined.

(** *** Property lists *)

Lemma lookup_set_prop props key v k :
  lookup k (set_prop props key v) =
  if String.eqb key k then Some v else lookup k props.
Proof.
  induction props as [| [k0 w] rest IH]; simpl.
  - destruct (String.eqb_spec key k); reflexivity.
  - destruct (String.eqb_spec k0 key) as [-> | N]; simpl.
    + destruct (String.eqb_spec key k); reflexivity.
    + rewrite IH.
      destruct (String.eqb_spec k0 k) as [-> | N'];
        destruct (String.eqb_spec key k) as [-> | N'']; congruence.
Qed.

Lemma keys_of_set_prop props key v k :
  In k (keys_of (set_prop props key v)) <-> In k (keys_of props) \/ k = key.
Proof.
  unfold keys_of; induction props as [| [k0 w] rest IH]; simpl.
  - intuition congruence.
  - destruct (String.eqb_spec k0 key) as [-> | N]; simpl.
    + intuition congruence.
    + rewrite IH; intuition congruence.
Qed.

Lemma set_prop_NoDup props key v :
  NoDup (keys_of props) -> NoDup (keys_of (set_prop props key v)).
Proof.
  unfold keys_of; induction props as [| [k0 w] rest IH]; simpl; intros H.
  - constructor; [intros [] | constructor].
  - inversion H as [| ? ? Hn Hr]; subst.
    destruct (String.eqb_spec k0 key) as [-> | N]; simpl.
    + constructor; assumption.
    + constructor; [| apply IH; assumption].
      intros Hin; apply (keys_of_set_prop rest key v k0) in Hin.
      destruct Hin; [apply Hn; assumption | congruence].
Qed.

Lemma set_prop_Forall (P : value -> Prop) props key v :
  Forall (fun kv => P (snd kv)) props -> P v ->
  Forall (fun kv => P (snd kv)) (set_prop props key v).
Proof.
  induction props as [| [k0 w] rest IH]; simpl; intros H Hv.
  - constructor; [exact Hv | constructor].
  - inversion H; subst.
    destruct (String.eqb k0 key); constructor; simpl; auto.
Qed.

(** *** Records *)




Section ExtractFacts.
Context {driver : DriverText}.




Lemma map_outcome_inv {A B} (f : A -> outcome B) l bs :
  map_outcome f l = Ok bs -> Forall2 (fun a b => f a = Ok b) l bs.
Proof.
  revert bs; induction l as [| a rest IH]; simpl; intros bs.
  - intros [= <-]; constructor.
  - destruct (f a) eqn:Ea; simpl; [| discriminate].
    destruct (map_outcome f rest) eqn:Er; simpl; [| discriminate].
    intros [= <-]; constructor; auto.
Qed.

End ExtractFacts.

Lemma Forall2_In_r_inv {A B} (R : A -> B -> Prop) l l' b :
  Forall2 R l l' -> In b l' -> exists a, In a l /\ R a b.
Proof.
  induction 1 as [| a0 b0 l l' Hab _ IH]; simpl; [intros [] |].
  intros [<- | Hin]; [exists a0; auto |].
  destruct (IH Hin) as [a [Ha Hr]]; exists a; auto.
Qed.

Section PlainFacts.
Context {driver : DriverText}.

Lemma forallb_map_Forall {A B} (f : A -> B) (p : B -> bool) (l : list A) :
  Forall (fun a => p (f a) = true) l -> forallb p (map f l) = true.
Proof.
  induction 1; simpl; [reflexivity |].
  apply andb_true_intro; split; assumption.
Qed.

(** The equations of [convertValues], case by case. *)
Lemma convertValues_int i :
  convertValues (VInt i) =
  if Integer.inSafeRange i then VNum (NumInt (Integer.toNumber i))
  else VStr (Integer.toString i).
Proof. reflexivity. Qed.

Lemma convertValues_temporal t :
  convertValues (VTemporal t) = VStr (Temporal_toString t).
Proof. destruct t; reflexivity. Qed.

Lemma convertValues_array elems :
  convertValues (VArr elems) = VArr (map convertValues elems).
Proof. reflexivity. Qed.

Lemma convertValues_object props :
  convertValues (VObj props) =
  VObj (map (fun kv => (fst kv, convertValues (snd kv))) props).
Proof. reflexivity. Qed.

Lemma convertValues_node identity labels properties elementId :
  convertValues (VNode identity labels properties elementId) =
  convertValues (VObj properties).
Proof. reflexivity. Qed.

Lemma forallb_props (p : value -> bool) (props : list (string * value)) :
  Forall (fun kv => p (convertValues (snd kv)) = true) props ->
  forallb (fun kv => p (snd kv))
          (map (fun kv => (fst kv, convertValues (snd kv))) props) = true.
Proof.
  intros H.
  apply forallb_map_Forall
    with (f := fun kv => (fst kv, convertValues (snd kv)))
         (p := fun kv => p (snd kv)).
  exact H.
Qed.

(** Whatever the value, nothing driver-native is left in its conversion. *)
Lemma convertValues_driver_free v : driver_free (convertValues v) = true.
Proof.
  induction v as [| | b | n | s | elems IH | props IH | i | t | p
                  | identity labels properties elementId IH] using value_ind';
    try reflexivity.
  - rewrite convertValues_array; cbn [driver_free].
    apply forallb_map_Forall; exact IH.
  - rewrite convertValues_object; cbn [driver_free].
    apply forallb_props; exact IH.
  - rewrite convertValues_int.
    destruct (Integer.inSafeRange i); reflexivity.
  - rewrite convertValues_temporal; reflexivity.
  - rewrite convertValues_node, convertValues_object; cbn [driver_free].
    apply forallb_props; exact IH.
Qed.

(** On the grammar of raw values the conversion is plain data. *)
Lemma convertValues_plain v :
  raw_value v = true -> plain (convertValues v) = true.
Proof.
  induction v as [| | b | n | s | elems IH | props IH | i | t | p
                  | identity labels properties elementId IH] using value_ind';
    try reflexivity; try discriminate; cbn [raw_value]; intros H.
  - rewrite convertValues_array; cbn [plain].
    apply forallb_map_Forall.
    rewrite forallb_forall in H; rewrite Forall_forall in *; auto.
  - rewrite convertValues_object; cbn [plain].
    apply forallb_props.
    rewrite forallb_forall in H; rewrite Forall_forall in *; auto.
  - rewrite convertValues_int.
    destruct (Integer.inSafeRange i); reflexivity.
  - rewrite convertValues_temporal; reflexivity.
  - rewrite convertValues_node, convertValues_object; cbn [plain].
    apply forallb_props.
    rewrite forallb_forall in H; rewrite Forall_forall in *; auto.
Qed.

Lemma Record_get_In r key v : Record_get r key = Ok v -> In v (_fields r).
Proof.
  unfold Record_get.
  destruct (generateFieldLookup (keys r) 0 key); [| discriminate].
  destruct (nth_error (_fields r) n) eqn:N; [| discriminate].
  intros [= <-]; eapply nth_error_In; eassumption.
Qed.

(** Whatever the [forEach] of lines 181-183 has stored, when it completes,
    came out of [convertValues] on a field of the record. *)
Lemma forEach_key_inv r (P : value -> Prop) ks :
  (forall v, In v (_fields r) -> P (convertValues v)) ->
  forall acc obj',
    fold_left
      (fun acc key =>
         obj <- acc ;;
         v <- Record_get r key ;;
         Ok (set_prop obj key (convertValues v)))
      ks acc = Ok obj' ->
    (forall obj, acc = Ok obj -> Forall (fun kv => P (snd kv)) obj) ->
    Forall (fun kv => P (snd kv)) obj'.
Proof.
  intros Hf; induction ks as [| k rest IH]; simpl; intros acc obj' E Hacc.
  - apply Hacc, E.
  - eapply IH; [exact E |].
    intros obj; destruct acc as [obj0 | e]; simpl; [| discriminate].
    destruct (Record_get r k) eqn:G; simpl; [| discriminate].
    intros [= <-]; apply set_prop_Forall; [apply Hacc; reflexivity |].
    apply Hf; eapply Record_get_In; eassumption.
Qed.

Lemma extractRecord_inv r out (p : value -> bool) :
  extractRecord r = Ok out ->
  (forall v, In v (_fields r) -> p (convertValues v) = true) ->
  exists props, out = VObj props /\ forallb (fun kv => p (snd kv)) props = true.
Proof.
  unfold extractRecord; intros E Hf.
  destruct (fold_left _ (keys r) (Ok [])) as [obj |] eqn:F; simpl in E;
    [| discriminate].
  injection E as <-; exists obj; split; [reflexivity |].
  apply forallb_forall; intros kv Hkv.
  pose proof (forEach_key_inv r (fun v => p v = true) (keys r) Hf _ _ F) as H.
  rewrite Forall_forall in H; apply H; [| exact Hkv].
  intros obj0 [= <-]; constructor.
Qed.

(** C3: whatever [extractRecords] produces from an array of driver records
    holds no driver-native value at any depth; when the fields are over the
    grammar of raw values, every value in it is null, a number, a string, a
    boolean, or an array or object of such values. *)
Theorem extractRecords_plain :
  forall (records : list IRecord) (out : value),
    extractRecords (Records records) = Ok out ->
    driver_free out = true /\
    (forallb raw_record records = true -> plain out = true).
Proof.
  intros records out; unfold extractRecords.
  destruct (map_outcome extractRecord records) as [objs |] eqn:E; simpl;
    [| discriminate].
  intros [= <-]; apply map_outcome_inv in E.
  split; [| intros Hraw]; cbn [driver_free plain]; apply forallb_forall;
    intros o Ho.
  - destruct (Forall2_In_r_inv _ _ _ _ E Ho) as [r [_ Er]].
    destruct (extractRecord_inv r o driver_free Er) as [props [-> Hp]];
      [intros; apply convertValues_driver_free | exact Hp].
  - destruct (Forall2_In_r_inv _ _ _ _ E Ho) as [r [Hr Er]].
    rewrite forallb_forall in Hraw; specialize (Hraw r Hr).
    unfold raw_record in Hraw; rewrite forallb_forall in Hraw.
    destruct (extractRecord_inv r o plain Er) as [props [-> Hp]];
      [intros; apply convertValues_plain; auto | exact Hp].
Qed.

End PlainFacts.

Lemma extractRecords_plain_witness :
  exists out,
    extractRecords (Records sample_records) = Ok out /\
    driver_free out = true /\ plain out = true.
Proof.
  eexists; split; [vm_compute; reflexivity |].
  match goal with |- driver_free ?o = true /\ _ =>
    assert (E : extractRecords (Records sample_records) = Ok o)
      by (vm_compute; reflexivity);
    destruct (extractRecords_plain sample_records o E) as [H1 H2] end.
  split; [exact H1 | apply H2; reflexivity].
Defined.

(** ** The shape of [extractRecords] *)



Section ExtractShape.
Context {driver : DriverText}.


End ExtractShape.


(** ** [removeEmptyArrays] *)

Lemma lookup_indexed_zero e rest : lookup "0" (indexed (e :: rest)) = Some e.
Proof. reflexivity. Qed.

Lemma get_prop_first elems :
  truthy (get_prop (VArr elems) "0") = true ->
  exists first rest, elems = first :: rest /\
                     get_prop (VArr elems) "0" = first.
Proof.
  destruct elems as [| first rest]; [discriminate |].
  intros _; exists first, rest; split; reflexivity.
Qed.

Lemma get_prop_array v key elems :
  get_prop v key = VArr elems -> field v key = Some (VArr elems).
Proof.
  unfold get_prop, field.
  destruct (lookup key (own_props v)); [intros ->; reflexivity |].
  destruct v; try discriminate;
    destruct (String.eqb key "length"); discriminate.
Qed.

Lemma get_prop_null v key :
  is_null (get_prop v key) = true <-> field v key = Some VNull.
Proof.
  unfold get_prop, field.
  destruct (lookup key (own_props v)) as [w |].
  - destruct w; simpl; split; congruence.
  - split; [| discriminate].
    destruct v; try discriminate;
      destruct (String.eqb key "length"); discriminate.
Qed.

(** A value with an own property is truthy: the falsy values are null,
    undefined, false, 0, NaN and the empty string. *)
Lemma field_truthy v key w : field v key = Some w -> truthy v = true.
Proof.
  unfold field; destruct v as [| | b | n | s | | | | | |]; simpl;
    try discriminate; try reflexivity.
  destruct s; [discriminate | reflexivity].
Qed.

(** The guard of lines 269-274 is the specification's condition:
    [record[arrayKey]] is a non-empty array whose first element has a
    [checkKey] field that is exactly null. *)
Lemma null_first_spec record arrayKey checkKey :
  null_first record arrayKey checkKey =
  match field record arrayKey with
  | Some a => null_collection checkKey a
  | None => false
  end.
Proof.
  assert (not_array : forall a rest,
             isArray a = false -> truthy a && isArray a && rest = false)
    by (intros a rest ->; rewrite andb_false_r; reflexivity).
  unfold null_first.
  destruct (field record arrayKey) as [a |] eqn:F.
  - assert (G : get_prop record arrayKey = a)
      by (unfold get_prop; unfold field in F; rewrite F; reflexivity).
    rewrite G.
    destruct a as [| | | | | elems | | | | |];
      try (rewrite not_array by reflexivity; reflexivity).
    destruct elems as [| first rest]; [reflexivity |].
    change (get_prop (VArr (first :: rest)) "0") with first.
    cbn [truthy isArray andb null_collection].
    destruct (field first checkKey) as [w |] eqn:Fw.
    + rewrite (field_truthy _ _ _ Fw); simpl.
      destruct (is_null (get_prop first checkKey)) eqn:N.
      * apply get_prop_null in N; rewrite Fw in N; injection N as ->;
          reflexivity.
      * destruct w; try reflexivity.
        exfalso; apply get_prop_null in Fw; congruence.
    + destruct (is_null (get_prop first checkKey)) eqn:N.
      * apply get_prop_null in N; congruence.
      * apply andb_false_r.
  - destruct (get_prop record arrayKey) as [| | | | | elems | | | | |] eqn:G;
      try (rewrite not_array by reflexivity; reflexivity).
    apply get_prop_array in G; congruence.
Qed.

(** Induction for a traversal that goes from a record to the elements of
    its array-valued fields. *)
Lemma array_fields_ind (P : value -> Prop) :
  (forall props,
      Forall (fun kv => forall elems, snd kv = VArr elems -> Forall P elems)
             props ->
      P (VObj props)) ->
  (forall l,
      Forall (fun w => forall elems, w = VArr elems -> Forall P elems) l ->
      P (VArr l)) ->
  (forall v, isArray v = false -> (forall props, v <> VObj props) -> P v) ->
  forall v, P v.
Proof.
  intros Hobj Harr Hleaf v.
  enough (H : P v /\ forall elems, v = VArr elems -> Forall P elems)
    by apply H.
  induction v as [| | b | n | s | elems IH | props IH | i | t | p
                  | identity labels properties elementId IH] using value_ind';
    try (split; [apply Hleaf; [reflexivity | discriminate] | discriminate]).
  - split.
    + apply Harr; eapply Forall_impl; [| exact IH]; intros w [_ Hw]; exact Hw.
    + intros l [= <-]; eapply Forall_impl; [| exact IH]; intros w [Hw _];
        exact Hw.
  - split; [| discriminate].
    apply Hobj; eapply Forall_impl; [| exact IH]; intros kv [_ Hw]; exact Hw.
Qed.

Lemma map_outcome_eq_map {A B} (f : A -> outcome B) (g : A -> B) l bs :
  Forall (fun a => forall b, f a = Ok b -> b = g a) l ->
  map_outcome f l = Ok bs -> bs = map g l.
Proof.
  intros H; revert bs; induction H as [| a rest Ha _ IH]; simpl; intros bs.
  - intros [= <-]; reflexivity.
  - destruct (f a) as [b |] eqn:Ea; simpl; [| discriminate].
    destruct (map_outcome f rest) as [bs' |]; simpl; [| discriminate].
    intros [= <-]; rewrite (Ha b eq_refl), (IH bs' eq_refl); reflexivity.
Qed.

Lemma map_outcome_i_eq_map_i {A B} (f : nat -> A -> outcome B)
    (g : nat -> A -> B) l :
  Forall (fun a => forall i b, f i a = Ok b -> b = g i a) l ->
  forall i bs, map_outcome_i f i l = Ok bs -> bs = map_i g i l.
Proof.
  induction 1 as [| a rest Ha _ IH]; simpl; intros i bs.
  - intros [= <-]; reflexivity.
  - destruct (f i a) as [b |] eqn:Ea; simpl; [| discriminate].
    destruct (map_outcome_i f (S i) rest) as [bs' |] eqn:Er; simpl;
      [| discriminate].
    intros [= <-]; rewrite (Ha i b Ea), (IH (S i) bs' Er); reflexivity.
Qed.

Lemma map_outcome_total {A B} (f : A -> outcome B) l :
  Forall (fun a => exists b, f a = Ok b) l ->
  exists bs, map_outcome f l = Ok bs.
Proof.
  induction 1 as [| a rest [b Ea] _ [bs Er]]; simpl.
  - eexists; reflexivity.
  - rewrite Ea; simpl; rewrite Er; simpl; eexists; reflexivity.
Qed.

Lemma map_outcome_i_total {A B} (f : nat -> A -> outcome B) l :
  Forall (fun a => forall i, exists b, f i a = Ok b) l ->
  forall i, exists bs, map_outcome_i f i l = Ok bs.
Proof.
  induction 1 as [| a rest Ha _ IH]; simpl; intros i.
  - eexists; reflexivity.
  - destruct (Ha i) as [b ->]; simpl.
    destruct (IH (S i)) as [bs ->]; simpl; eexists; reflexivity.
Qed.

Section Collapse.
Variables arrayKey checkKey : string.

Lemma visit_refines emptied v w :
  (forall elems,
      v = VArr elems ->
      Forall (fun e => forall out,
                  removeEmptyArrays_at arrayKey checkKey e = Ok out ->
                  out = collapse_record arrayKey checkKey e)
             elems) ->
  visit (map_outcome (removeEmptyArrays_at arrayKey checkKey)) emptied v
    = Ok w ->
  w = if emptied then VArr []
      else match v with
           | VArr elems => VArr (map (collapse_record arrayKey checkKey) elems)
           | _ => v
           end.
Proof.
  intros H; unfold visit; destruct emptied; [intros [= <-]; reflexivity |].
  destruct v; try (intros [= <-]; reflexivity).
  destruct (map_outcome _ elems) as [elems' |] eqn:E; simpl; [| discriminate].
  intros [= <-]; f_equal.
  eapply map_outcome_eq_map; [| exact E].
  apply (H elems eq_refl).
Qed.

(** Where an iteration of the loop completes, it has done to [data[i]] what
    the specification says. *)
Lemma removeEmptyArrays_at_refines record out :
  removeEmptyArrays_at arrayKey checkKey record = Ok out ->
  out = collapse_record arrayKey checkKey record.
Proof.
  revert out; induction record as [props IH | l IH | v Hv Hv']
    using array_fields_ind; intros out.
  - cbn [removeEmptyArrays_at collapse_record].
    rewrite null_first_spec.
    set (emptied := match field (VObj props) arrayKey with
                    | Some a => null_collection checkKey a
                    | None => false
                    end).
    destruct (map_outcome _ props) as [props' |] eqn:E; simpl;
      [| discriminate].
    intros [= <-]; f_equal.
    eapply map_outcome_eq_map; [| exact E].
    eapply Forall_impl; [| exact IH].
    intros [k v] Hkv [k' w]; cbn [fst snd] in *.
    destruct (visit _ _ v) as [w' |] eqn:V; simpl; [| discriminate].
    intros [= <- <-]; f_equal.
    apply (visit_refines _ _ _ Hkv V).
  - cbn [removeEmptyArrays_at collapse_record].
    rewrite null_first_spec.
    set (emptied := match field (VArr l) arrayKey with
                    | Some a => null_collection checkKey a
                    | None => false
                    end).
    destruct (map_outcome_i _ 0%nat l) as [l' |] eqn:E; simpl;
      [| discriminate].
    intros [= <-]; f_equal.
    eapply map_outcome_i_eq_map_i; [| exact E].
    eapply Forall_impl; [| exact IH].
    intros v Hv i w V; cbn beta in V.
    apply (visit_refines _ _ _ Hv V).
  - destruct v; try discriminate; try (intros [= <-]; reflexivity).
    exfalso; eapply Hv'; reflexivity.
Qed.

Lemma visit_total emptied v :
  (forall elems,
      v = VArr elems ->
      Forall (fun e => exists out,
                  removeEmptyArrays_at arrayKey checkKey e = Ok out)
             elems) ->
  exists w,
    visit (map_outcome (removeEmptyArrays_at arrayKey checkKey)) emptied v
    = Ok w.
Proof.
  intros H; unfold visit; destruct emptied; [eexists; reflexivity |].
  destruct v; try (eexists; reflexivity).
  destruct (map_outcome_total _ elems (H elems eq_refl)) as [elems' ->].
  simpl; eexists; reflexivity.
Qed.



End Collapse.

Lemma removeEmptyArrays_refines arrayKey checkKey data out :
  removeEmptyArrays arrayKey checkKey data = Ok out ->
  out = collapseNullCollections arrayKey checkKey data.
Proof.
  unfold removeEmptyArrays, collapseNullCollections.
  apply map_outcome_eq_map, Forall_forall.
  intros record _ out'; apply removeEmptyArrays_at_refines.
Qed.




(** The guard stops at a falsy first element: its [checkKey] is not read
    and the array is not emptied. *)
Lemma null_first_falsy record arrayKey checkKey first rest :
  get_prop record arrayKey = VArr (first :: rest) ->
  truthy first = false ->
  null_first record arrayKey checkKey = false.
Proof.
  intros G F; unfold null_first; rewrite G.
  change (get_prop (VArr (first :: rest)) "0") with first.
  rewrite F; reflexivity.
Qed.

(** C10 (as the code has it): with a first element 0, false or the empty
    string the array is left as it is and the call returns; with a first
    element null (or undefined) the guard of line 272 also leaves the array
    as it is, but the [for ... in] loop then calls [removeEmptyArrays] on
    that array, where [data[0][arrayKey]] reads a property of null: the call
    throws a TypeError. *)
Theorem removeEmptyArrays_null_element_throws :
  removeEmptyArrays "friends" "name" [VObj [("friends", VArr [VNull])]]
    = Throw TypeError /\
  removeEmptyArrays "friends" "name" [VObj [("friends", VArr [VUndefined])]]
    = Throw TypeError /\
  removeEmptyArrays "friends" "name"
      [VObj [("friends", VArr [VNum (NumInt 0)])]]
    = Ok [VObj [("friends", VArr [VNum (NumInt 0)])]] /\
  removeEmptyArrays "friends" "name" [VObj [("friends", VArr [VBool false])]]
    = Ok [VObj [("friends", VArr [VBool false])]] /\
  removeEmptyArrays "friends" "name"
      [VObj [("friends", VArr [VStr EmptyString])]]
    = Ok [VObj [("friends", VArr [VStr EmptyString])]].
Proof. repeat split; reflexivity. Qed.

(** *** The recursive definition is the loop of the source *)

Lemma index_key_inj i j : index_key i = index_key j -> i = j.
Proof.
  unfold index_key; intros E.
  apply DecimalNat.Unsigned.to_uint_inj.
  assert (H : Some (Nat.to_uint i) = Some (Nat.to_uint j))
    by (rewrite <- !NilEmpty.usu, E; reflexivity).
  injection H as H; exact H.
Qed.

Lemma lookup_In key props w : lookup key props = Some w -> In (key, w) props.
Proof.
  induction props as [| [k v] rest IH]; simpl; [discriminate |].
  destruct (String.eqb_spec k key) as [-> | N].
  - intros [= ->]; left; reflexivity.
  - intros H; right; apply IH, H.
Qed.

Lemma lookup_app_skip key done todo :
  ~ In key (keys_of done) -> lookup key (done ++ todo) = lookup key todo.
Proof.
  induction done as [| [k v] rest IH]; simpl; intros H; [reflexivity |].
  destruct (String.eqb_spec k key) as [-> | N]; [| apply IH]; tauto.
Qed.

Lemma set_prop_app_skip key w done todo :
  ~ In key (keys_of done) ->
  set_prop (done ++ todo) key w = done ++ set_prop todo key w.
Proof.
  induction done as [| [k v] rest IH]; simpl; intros H; [reflexivity |].
  destruct (String.eqb_spec k key) as [-> | N]; [tauto |].
  rewrite IH by tauto; reflexivity.
Qed.

Lemma indexed_from_In i elems key w :
  In (key, w) (indexed_from i elems) ->
  exists j,
    (i <= j)%nat /\ key = index_key j /\ nth_error elems (j - i) = Some w.
Proof.
  revert i; induction elems as [| e rest IH]; simpl; intros i; [intros [] |].
  intros [[= <- <-] | H].
  - exists i; rewrite Nat.sub_diag; auto.
  - destruct (IH _ H) as [j [Hj [-> Hn]]]; exists j; repeat split; [lia |].
    replace (j - i)%nat with (S (j - S i)) by lia; exact Hn.
Qed.

Lemma keys_of_app (a b : list (string * value)) :
  keys_of (a ++ b) = keys_of a ++ keys_of b.
Proof. apply map_app. Qed.

Lemma indexed_from_app i a b :
  indexed_from i (a ++ b) =
  indexed_from i a ++ indexed_from (i + List.length a) b.
Proof.
  revert i; induction a as [| e rest IH]; simpl; intros i.
  - rewrite Nat.add_0_r; reflexivity.
  - rewrite IH; do 3 f_equal; lia.
Qed.

Lemma indexed_from_keys_lt i elems key :
  In key (keys_of (indexed_from i elems)) ->
  exists j, (i <= j < i + List.length elems)%nat /\ key = index_key j.
Proof.
  revert i; induction elems as [| e rest IH]; simpl; intros i; [intros [] |].
  intros [<- | H].
  - exists i; split; [lia | reflexivity].
  - destruct (IH _ H) as [j [Hj ->]]; exists j; split; [lia | reflexivity].
Qed.

Lemma update_index_app_skip key w i done todo :
  update_index key w i (done ++ todo) =
  if existsb (fun k => String.eqb k key) (keys_of (indexed_from i done))
  then update_index key w i done ++ todo
  else done ++ update_index key w (i + List.length done) todo.
Proof.
  revert i; induction done as [| e rest IH]; simpl; intros i.
  - rewrite Nat.add_0_r; reflexivity.
  - destruct (String.eqb (index_key i) key); [reflexivity |].
    rewrite IH; simpl.
    destruct (existsb _ _); [reflexivity |].
    do 3 f_equal; lia.
Qed.

Lemma index_key_fresh i done :
  existsb (fun k => String.eqb k (index_key (i + List.length done)))
          (keys_of (indexed_from i done)) = false.
Proof.
  destruct (existsb _ _) eqn:E; [| reflexivity].
  apply existsb_exists in E; destruct E as [k [Hk Ek]].
  apply String.eqb_eq in Ek; subst k.
  apply indexed_from_keys_lt in Hk; destruct Hk as [j [Hj Ej]].
  apply index_key_inj in Ej; lia.
Qed.

Lemma map_outcome_cons {A B} (f : A -> outcome B) a rest :
  map_outcome f (a :: rest) =
  (b <- f a ;; bs <- map_outcome f rest ;; Ok (b :: bs)).
Proof. reflexivity. Qed.

Lemma map_outcome_i_cons {A B} (f : nat -> A -> outcome B) i a rest :
  map_outcome_i f i (a :: rest) =
  (b <- f i a ;; bs <- map_outcome_i f (S i) rest ;; Ok (b :: bs)).
Proof. reflexivity. Qed.

Section Loop.
Variable recurse : list value -> outcome (list value).
Hypothesis recurse_nil : recurse [] = Ok [].

Lemma for_in_step_Ok record key :
  (for_in_step recurse) (Ok record) key =
  match get_prop record key with
  | VArr elems =>
      elems' <- recurse elems ;;
      Ok (assign record key (VArr elems'))
  | _ => Ok record
  end.
Proof. reflexivity. Qed.

Lemma visit_array elems :
  visit recurse false (VArr elems) =
  (elems' <- recurse elems ;; Ok (VArr elems')).
Proof. reflexivity. Qed.

Lemma visit_other v : isArray v = false -> visit recurse false v = Ok v.
Proof. destruct v; try reflexivity; discriminate. Qed.

Lemma for_in_throw keys e :
  fold_left (for_in_step recurse) keys (Throw e) = Throw e.
Proof. induction keys; simpl; auto. Qed.

Lemma for_in_no_array record keys :
  (forall key elems, get_prop record key <> VArr elems) ->
  fold_left (for_in_step recurse) keys (Ok record) = Ok record.
Proof.
  intros H; induction keys as [| k rest IH]; simpl; [reflexivity |].
  destruct (get_prop record k) eqn:G; try exact IH.
  exfalso; eapply H; eassumption.
Qed.

Lemma for_in_object done todo :
  NoDup (keys_of (done ++ todo)) ->
  fold_left (for_in_step recurse) (keys_of todo) (Ok (VObj (done ++ todo))) =
  (todo' <- map_outcome
              (fun kv => w <- visit recurse false (snd kv) ;; Ok (fst kv, w))
              todo ;;
   Ok (VObj (done ++ todo'))).
Proof.
  revert done; induction todo as [| [k v] rest IH]; intros done Hnd.
  - reflexivity.
  - assert (Hk : ~ In k (keys_of done)).
    { rewrite keys_of_app in Hnd; simpl in Hnd.
      apply NoDup_remove_2 in Hnd; intros H; apply Hnd, in_or_app; auto. }
    assert (G : get_prop (VObj (done ++ (k, v) :: rest)) k = v).
    { unfold get_prop; cbn [own_props].
      rewrite lookup_app_skip by exact Hk; cbn [lookup].
      rewrite String.eqb_refl; reflexivity. }
    assert (Step : forall w,
               fold_left (for_in_step recurse) (keys_of rest)
                 (Ok (VObj (done ++ (k, w) :: rest))) =
               (todo' <- map_outcome
                           (fun kv => w <- visit recurse false (snd kv) ;;
                                      Ok (fst kv, w)) rest ;;
                Ok (VObj (done ++ (k, w) :: todo')))).
    { intros w.
      replace (done ++ (k, w) :: rest) with ((done ++ [(k, w)]) ++ rest)
        by (rewrite <- app_assoc; reflexivity).
      rewrite (IH (done ++ [(k, w)])).
      - destruct (map_outcome _ rest); cbn [bind]; [| reflexivity].
        rewrite <- app_assoc; reflexivity.
      - rewrite <- app_assoc.
        rewrite !keys_of_app in *; exact Hnd. }
    change (keys_of ((k, v) :: rest)) with (k :: keys_of rest).
    cbn [fold_left]; rewrite for_in_step_Ok, G, map_outcome_cons.
    cbn [fst snd].
    destruct (isArray v) eqn:A.
    + destruct v; try discriminate.
      rewrite visit_array.
      destruct (recurse elems) as [elems' | e]; cbn [bind].
      * cbn [assign]; rewrite set_prop_app_skip by exact Hk.
        cbn [set_prop]; rewrite String.eqb_refl.
        rewrite (Step _); destruct (map_outcome _ rest); reflexivity.
      * apply for_in_throw.
    + rewrite (visit_other v A); cbn [bind].
      destruct v; try discriminate;
        rewrite (Step _); destruct (map_outcome _ rest); reflexivity.
Qed.

Lemma map_outcome_ext_in {A B} (f g : A -> outcome B) l :
  (forall a, In a l -> f a = g a) -> map_outcome f l = map_outcome g l.
Proof.
  induction l as [| a rest IH]; simpl; intros H; [reflexivity |].
  rewrite (H a (or_introl eq_refl)), IH; [reflexivity |].
  intros a' Ha; apply H; right; exact Ha.
Qed.

Lemma visit_nil : visit recurse false (VArr []) = Ok (VArr []).
Proof. unfold visit; rewrite recurse_nil; reflexivity. Qed.

Lemma visit_emptied v : visit recurse true v = Ok (VArr []).
Proof. reflexivity. Qed.

Lemma emptied_object props arrayKey :
  NoDup (keys_of props) -> In arrayKey (keys_of props) ->
  map_outcome (fun kv => w <- visit recurse false (snd kv) ;; Ok (fst kv, w))
              (set_prop props arrayKey (VArr [])) =
  map_outcome (fun kv => w <- visit recurse (String.eqb (fst kv) arrayKey)
                                  (snd kv) ;;
                         Ok (fst kv, w))
              props.
Proof.
  induction props as [| [k v] rest IH]; intros Hnd Hin; [destruct Hin |].
  inversion Hnd as [| ? ? Hk Hr]; subst.
  cbn [set_prop].
  destruct (String.eqb_spec k arrayKey) as [-> | N].
  - rewrite !map_outcome_cons; cbn [snd fst].
    rewrite visit_nil, String.eqb_refl, visit_emptied; cbn [bind].
    rewrite (map_outcome_ext_in
               (fun kv => w <- visit recurse false (snd kv) ;; Ok (fst kv, w))
               (fun kv => w <- visit recurse (String.eqb (fst kv) arrayKey)
                                 (snd kv) ;;
                          Ok (fst kv, w)) rest); [reflexivity |].
    intros [k' v'] Hkv; cbn [fst snd].
    destruct (String.eqb_spec k' arrayKey) as [-> | N']; [| reflexivity].
    exfalso; apply Hk; apply (in_map fst) in Hkv; exact Hkv.
  - rewrite !map_outcome_cons; cbn [fst snd].
    destruct (String.eqb_spec k arrayKey) as [E | _]; [congruence |].
    rewrite IH; [reflexivity | exact Hr |].
    destruct Hin; [simpl in *; congruence | assumption].
Qed.

Lemma get_prop_index done e rest :
  get_prop (VArr (done ++ e :: rest)) (index_key (List.length done)) = e.
Proof.
  unfold get_prop; cbn [own_props]; unfold indexed.
  rewrite indexed_from_app; simpl.
  rewrite lookup_app_skip; [simpl; rewrite String.eqb_refl; reflexivity |].
  intros H; apply indexed_from_keys_lt in H; destruct H as [j [Hj Ej]].
  apply index_key_inj in Ej; lia.
Qed.

Lemma assign_index done e rest w :
  assign (VArr (done ++ e :: rest)) (index_key (List.length done)) w =
  VArr (done ++ w :: rest).
Proof.
  cbn [assign]; rewrite update_index_app_skip.
  pose proof (index_key_fresh 0 done) as F; cbn [Nat.add] in F; rewrite F.
  cbn [Nat.add update_index]; rewrite String.eqb_refl; reflexivity.
Qed.

Lemma for_in_array done todo :
  fold_left (for_in_step recurse)
    (keys_of (indexed_from (List.length done) todo))
    (Ok (VArr (done ++ todo))) =
  (todo' <- map_outcome_i (fun _ e => visit recurse false e)
              (List.length done) todo ;;
   Ok (VArr (done ++ todo'))).
Proof.
  revert done; induction todo as [| v rest IH]; intros done.
  - reflexivity.
  - assert (Step : forall w,
               fold_left (for_in_step recurse)
                 (keys_of (indexed_from (S (List.length done)) rest))
                 (Ok (VArr (done ++ w :: rest))) =
               (todo' <- map_outcome_i (fun _ e => visit recurse false e)
                           (S (List.length done)) rest ;;
                Ok (VArr (done ++ w :: todo')))).
    { intros w.
      replace (done ++ w :: rest) with ((done ++ [w]) ++ rest)
        by (rewrite <- app_assoc; reflexivity).
      replace (S (List.length done)) with (List.length (done ++ [w]))
        by (rewrite length_app; simpl; lia).
      rewrite (IH (done ++ [w])).
      destruct (map_outcome_i _ _ rest); cbn [bind]; [| reflexivity].
      rewrite <- app_assoc; reflexivity. }
    change (keys_of (indexed_from (List.length done) (v :: rest)))
      with (index_key (List.length done)
              :: keys_of (indexed_from (S (List.length done)) rest)).
    cbn [fold_left]; rewrite for_in_step_Ok, get_prop_index, map_outcome_i_cons.
    destruct (isArray v) eqn:A.
    + destruct v; try discriminate.
      rewrite visit_array.
      destruct (recurse elems) as [elems' | e]; cbn [bind].
      * rewrite assign_index, (Step _).
        destruct (map_outcome_i _ _ rest); reflexivity.
      * apply for_in_throw.
    + rewrite (visit_other v A); cbn [bind].
      destruct v; try discriminate;
        rewrite (Step _); destruct (map_outcome_i _ _ rest); reflexivity.
Qed.

Lemma map_outcome_i_ext_in {A B} (f g : nat -> A -> outcome B) l :
  forall i,
    (forall j a, (i <= j)%nat -> f j a = g j a) ->
    map_outcome_i f i l = map_outcome_i g i l.
Proof.
  induction l as [| a rest IH]; simpl; intros i H; [reflexivity |].
  rewrite (H i a (le_n _)), (IH (S i)); [reflexivity |].
  intros j a' Hj; apply H; lia.
Qed.

Lemma emptied_array arrayKey elems :
  forall i,
    map_outcome_i (fun _ e => visit recurse false e) i
                  (update_index arrayKey (VArr []) i elems) =
    map_outcome_i (fun j e => visit recurse (String.eqb (index_key j) arrayKey) e)
                  i elems.
Proof.
  induction elems as [| e rest IH]; intros i; [reflexivity |].
  cbn [update_index].
  destruct (String.eqb_spec (index_key i) arrayKey) as [E | N].
  - rewrite !map_outcome_i_cons.
    rewrite visit_nil; cbn [bind].
    destruct (String.eqb_spec (index_key i) arrayKey) as [_ | N];
      [| congruence].
    rewrite visit_emptied; cbn [bind].
    rewrite (map_outcome_i_ext_in
               (fun _ e => visit recurse false e)
               (fun j e => visit recurse (String.eqb (index_key j) arrayKey) e)
               rest (S i)); [reflexivity |].
    intros j a Hj.
    destruct (String.eqb_spec (index_key j) arrayKey) as [E' | N'];
      [| reflexivity].
    rewrite <- E in E'; apply index_key_inj in E'; lia.
  - rewrite !map_outcome_i_cons, IH.
    destruct (String.eqb_spec (index_key i) arrayKey) as [E | _];
      [congruence | reflexivity].
Qed.

End Loop.

Lemma null_first_no_array record arrayKey checkKey :
  (forall elems, get_prop record arrayKey <> VArr elems) ->
  null_first record arrayKey checkKey = false.
Proof.
  intros H; unfold null_first.
  destruct (get_prop record arrayKey) eqn:G;
    try (cbn [isArray]; rewrite andb_false_r; reflexivity).
  exfalso; eapply H; reflexivity.
Qed.

Lemma chars_are_strings s w : In w (chars s) -> exists c, w = VStr c.
Proof.
  unfold chars; rewrite in_map_iff; intros [c [<- _]]; eexists; reflexivity.
Qed.

Lemma field_string s key w :
  field (VStr s) key = Some w -> exists c, w = VStr c.
Proof.
  unfold field; cbn [own_props]; intros H.
  apply lookup_In, indexed_from_In in H; destruct H as [j [_ [_ H]]].
  apply nth_error_In in H; eapply chars_are_strings; eassumption.
Qed.

Lemma get_prop_no_own_array v key elems :
  no_own_array v -> get_prop v key <> VArr elems.
Proof.
  intros Hv G; apply get_prop_array in G.
  destruct v as [| | b | n | s | | | i | t | p |]; try contradiction;
    try discriminate.
  - apply field_string in G; destruct G as [c G]; discriminate.
  - apply lookup_In in G; simpl in G; unfold int_num in G.
    intuition discriminate.
  - apply lookup_In in G.
    destruct t as [| ? ? ? ? ? ? ? off id | | | |]; simpl in G;
      unfold int_num in G; try (intuition discriminate).
    destruct off, id; simpl in G; intuition discriminate.
  - apply lookup_In in G; simpl in G.
    destruct (z p); simpl in G; intuition discriminate.
Qed.

Lemma removeEmptyArrays_strings arrayKey checkKey labels :
  removeEmptyArrays arrayKey checkKey (map VStr labels) = Ok (map VStr labels).
Proof.
  unfold removeEmptyArrays; induction labels as [| l rest IH];
    [reflexivity |].
  cbn [map]; rewrite map_outcome_cons, IH; reflexivity.
Qed.

Lemma null_first_node identity labels properties elementId arrayKey checkKey :
  null_first (VNode identity labels properties elementId) arrayKey checkKey
  = false.
Proof.
  rewrite null_first_spec.
  destruct (field _ arrayKey) as [a |] eqn:F; [| reflexivity].
  apply lookup_In in F; simpl in F.
  destruct F as [F | [F | [F | [F | []]]]]; injection F as _ <-;
    try reflexivity.
  destruct labels as [| l rest]; [reflexivity |]; cbn [map null_collection].
  destruct (field (VStr l) checkKey) as [w |] eqn:Fw; [| reflexivity].
  apply field_string in Fw; destruct Fw as [c ->]; reflexivity.
Qed.

(** The iteration of [removeEmptyArrays] on [data[i]] is the body of the
    source's loop, with the recursive call made on [removeEmptyArrays]
    itself; for an object, its keys are distinct. *)
Lemma removeEmptyArrays_loop arrayKey checkKey record :
  NoDup (own_keys record) ->
  removeEmptyArrays_at arrayKey checkKey record =
  loop_body (removeEmptyArrays arrayKey checkKey) arrayKey checkKey record.
Proof.
  intros Hnd.
  assert (Leaf : no_own_array record ->
                 removeEmptyArrays_at arrayKey checkKey record = Ok record ->
                 nullish record = false ->
                 removeEmptyArrays_at arrayKey checkKey record =
                 loop_body (removeEmptyArrays arrayKey checkKey)
                           arrayKey checkKey record).
  { intros Hv -> Hn; unfold loop_body.
    replace (read_prop record arrayKey) with (Ok (get_prop record arrayKey))
      by (destruct record; try reflexivity; discriminate).
    cbn [bind].
    rewrite null_first_no_array
      by (intros; apply get_prop_no_own_array, Hv).
    symmetry; apply for_in_no_array.
    intros; apply get_prop_no_own_array, Hv. }
  destruct record as [| | b | n | s | elems | props | i | t | p
                      | identity labels properties elementId];
    try reflexivity;
    try (apply Leaf; [exact I | reflexivity | reflexivity]).
  - (* an array as a record *)
    cbn [removeEmptyArrays_at]; unfold loop_body.
    cbn [read_prop bind].
    assert (F : forall todo,
               fold_left (for_in_step (removeEmptyArrays arrayKey checkKey))
                 (keys_of (indexed_from 0 todo)) (Ok (VArr todo)) =
               (todo' <- map_outcome_i
                           (fun _ e =>
                              visit (removeEmptyArrays arrayKey checkKey)
                                    false e) 0%nat todo ;;
                Ok (VArr todo')))
      by (intros todo;
          apply (for_in_array (removeEmptyArrays arrayKey checkKey) [] todo)).
    destruct (null_first (VArr elems) arrayKey checkKey) eqn:E;
      cbn [andb assign]; unfold own_keys; cbn [own_props]; unfold indexed;
      rewrite F.
    + rewrite emptied_array by reflexivity; reflexivity.
    + reflexivity.
  - (* an object *)
    cbn [removeEmptyArrays_at]; unfold loop_body.
    cbn [read_prop bind].
    assert (F : forall todo,
               NoDup (keys_of todo) ->
               fold_left (for_in_step (removeEmptyArrays arrayKey checkKey))
                 (keys_of todo) (Ok (VObj todo)) =
               (todo' <- map_outcome
                           (fun kv =>
                              w <- visit (removeEmptyArrays arrayKey checkKey)
                                     false (snd kv) ;;
                              Ok (fst kv, w)) todo ;;
                Ok (VObj todo')))
      by (intros todo;
          apply (for_in_object (removeEmptyArrays arrayKey checkKey) [] todo)).
    destruct (null_first (VObj props) arrayKey checkKey) eqn:E;
      cbn [andb assign]; unfold own_keys; cbn [own_props].
    + rewrite F by (apply set_prop_NoDup, Hnd).
      rewrite emptied_object; [reflexivity | reflexivity | exact Hnd |].
      rewrite null_first_spec in E.
      destruct (field (VObj props) arrayKey) as [a |] eqn:Fa; [| discriminate].
      apply lookup_In in Fa; apply (in_map fst) in Fa; exact Fa.
    + rewrite F by exact Hnd; reflexivity.
  - (* a Node: only [labels] is an array, and it comes back as it was *)
    cbn [removeEmptyArrays_at]; unfold loop_body.
    cbn [read_prop bind]; rewrite null_first_node.
    unfold own_keys; cbn [own_props keys_of map fst fold_left].
    rewrite for_in_step_Ok.
    change (get_prop (VNode identity labels properties elementId) "identity")
      with (VInt identity).
    cbv iota; rewrite for_in_step_Ok.
    change (get_prop (VNode identity labels properties elementId) "labels")
      with (VArr (map VStr labels)).
    cbv iota; rewrite removeEmptyArrays_strings; cbn [bind assign].
    reflexivity.
Qed.

(** [removeEmptyArrays] runs the body of the source's loop over [data]. *)
Lemma removeEmptyArrays_is_loop arrayKey checkKey data :
  Forall (fun record => NoDup (own_keys record)) data ->
  removeEmptyArrays arrayKey checkKey data =
  map_outcome
    (loop_body (removeEmptyArrays arrayKey checkKey) arrayKey checkKey) data.
Proof.
  intros H; unfold removeEmptyArrays at 1.
  apply map_outcome_ext_in; intros record Hr.
  apply removeEmptyArrays_loop.
  rewrite Forall_forall in H; apply H, Hr.
Qed.

(** The in-place loop of [convertValues] over the keys of an object is a
    map over its properties. *)
Lemma object_loop_map convert props :
  NoDup (keys_of props) ->
  object_loop convert props =
  map (fun kv => (fst kv, convert (snd kv))) props.
Proof.
  unfold object_loop.
  enough (H : forall done todo,
             NoDup (keys_of (done ++ todo)) ->
             fold_left
               (fun obj key =>
                  set_prop obj key (convert (get_prop (VObj obj) key)))
               (keys_of todo) (done ++ todo) =
             done ++ map (fun kv => (fst kv, convert (snd kv))) todo)
    by (intros Hnd; apply (H [] props Hnd)).
  intros done todo; revert done.
  induction todo as [| [k v] rest IH]; intros done Hnd.
  - reflexivity.
  - assert (Hk : ~ In k (keys_of done)).
    { rewrite keys_of_app in Hnd; simpl in Hnd.
      apply NoDup_remove_2 in Hnd; intros H; apply Hnd, in_or_app; auto. }
    assert (G : get_prop (VObj (done ++ (k, v) :: rest)) k = v).
    { unfold get_prop; cbn [own_props].
      rewrite lookup_app_skip by exact Hk; cbn [lookup].
      rewrite String.eqb_refl; reflexivity. }
    change (keys_of ((k, v) :: rest)) with (k :: keys_of rest).
    cbn [fold_left map fst snd].
    rewrite G, set_prop_app_skip by exact Hk.
    cbn [set_prop]; rewrite String.eqb_refl.
    replace (done ++ (k, convert v) :: rest)
      with ((done ++ [(k, convert v)]) ++ rest)
      by (rewrite <- app_assoc; reflexivity).
    rewrite IH.
    + rewrite <- app_assoc; reflexivity.
    + rewrite <- app_assoc; rewrite !keys_of_app in *; exact Hnd.
Qed.

(** ** The bootstrap *)

Lemma lookup_Object_assign source :
  forall target key,
    lookup key (Object_assign target source) =
    match lookup key (rev source) with
    | Some v => Some v
    | None => lookup key target
    end.
Proof.
  unfold Object_assign.
  induction source as [| [k v] rest IH]; intros target key; [reflexivity |].
  cbn [fold_left fst snd rev]; rewrite IH, lookup_set_prop.
  assert (L : forall a b,
             lookup key (a ++ b) =
             match lookup key a with Some w => Some w | None => lookup key b end).
  { intros a b; induction a as [| [k' v'] a IHa]; simpl; [reflexivity |].
    destruct (String.eqb k' key); [reflexivity | exact IHa]. }
  rewrite L; destruct (lookup key (rev rest)); [reflexivity |].
  simpl; destruct (String.eqb k key); reflexivity.
Qed.

Lemma lookup_rev_NoDup key props :
  NoDup (keys_of props) -> lookup key (rev props) = lookup key props.
Proof.
  assert (L : forall a b,
             lookup key (a ++ b) =
             match lookup key a with Some w => Some w | None => lookup key b end).
  { intros a b; induction a as [| [k' v'] a IHa]; simpl; [reflexivity |].
    destruct (String.eqb k' key); [reflexivity | exact IHa]. }
  induction props as [| [k v] rest IH]; simpl; intros Hnd; [reflexivity |].
  inversion Hnd as [| ? ? Hk Hr]; subst.
  rewrite L, (IH Hr); simpl.
  destruct (String.eqb_spec k key) as [-> | N].
  - destruct (lookup key rest) as [w |] eqn:E; [| reflexivity].
    exfalso; apply Hk; apply lookup_In in E.
    apply (in_map fst) in E; exact E.
  - destruct (lookup key rest); reflexivity.
Qed.

(** C8: the options handed to the driver are the default
    [disableLosslessIntegers: true] overlaid with the caller's option bag:
    a key the caller supplies has the caller's value, also when it is the
    default's key; any other key has the default's value. *)
Theorem driver_options_merge :
  forall config : Neo4jConfig,
    NoDup (keys_of (supplied_options config)) ->
    forall key,
      lookup key (driver_options config) =
      match lookup key (supplied_options config) with
      | Some v => Some v
      | None => lookup key default_options
      end.
Proof.
  intros config Hnd key; unfold driver_options.
  rewrite lookup_Object_assign, lookup_rev_NoDup by exact Hnd; reflexivity.
Qed.

Lemma driver_options_merge_witness :
  lookup "disableLosslessIntegers" (driver_options (local_config None))
    = Some (VBool false) /\
  lookup "maxConnectionPoolSize" (driver_options (local_config None))
    = Some (VNum (NumInt 10)) /\
  lookup "disableLosslessIntegers"
         (driver_options (mkConfig bolt "db" 7687 "neo4j" "neo" None None None))
    = Some (VBool true).
Proof.
  assert (Hnd : NoDup (keys_of (supplied_options (local_config None)))).
  { repeat constructor; simpl; intuition discriminate. }
  assert (Hnd' : NoDup (keys_of (supplied_options
                   (mkConfig bolt "db" 7687 "neo4j" "neo" None None None))))
    by constructor.
  split; [| split].
  - rewrite (driver_options_merge (local_config None) Hnd); reflexivity.
  - rewrite (driver_options_merge (local_config None) Hnd); reflexivity.
  - rewrite (driver_options_merge _ Hnd'); reflexivity.
Defined.

(** However many attempts fail, the rejection comes at the literal 60000. *)
Lemma retry_all_fail verify deadline :
  (forall k, verify k <> Connects) ->
  forall ticks k reason,
  exists r, retry verify deadline k ticks reason = Rejected deadline r.
Proof.
  intros H; induction ticks as [| ticks IH]; intros k reason;
    cbn [retry].
  - eexists; reflexivity.
  - destruct (deadline <=? retry_period * Z.of_nat k);
      [eexists; reflexivity |].
    destruct (verify k) eqn:E; [exfalso; eapply H; eassumption |].
    apply IH.
Qed.

Lemma createDriver_all_fail config verify :
  (forall k, verify k <> Connects) ->
  exists r, createDriver config verify = Rejected 60000 r.
Proof.
  intros H; unfold createDriver.
  apply (retry_all_fail verify (timeout_each config) H).
Qed.

(** Three failures, then a driver at 15000 ms: no further attempt. *)
Example createDriver_fourth_attempt :
  createDriver (local_config None)
    (fun k => if (k <? 3)%nat then Fails (refused k) else Connects)
  = Resolved 15000 3.
Proof. reflexivity. Qed.

(** C2 (as the code has it): the deadline is the literal 60000 of line 52
    and [verifyConnectionTimeout] is not consulted.  Whatever the
    configuration, in particular with [verifyConnectionTimeout = 10000],
    when every attempt fails the bootstrap is rejected at 60000 ms, with
    the reason of the twelfth attempt (the one of 55000 ms), and not at
    [verifyConnectionTimeout] ms with the reason of an attempt made before
    then. *)
Theorem createDriver_ignores_verifyConnectionTimeout :
  forall config : Neo4jConfig,
    createDriver config (fun k => Fails (refused k)) =
    Rejected 60000 (Some (refused 11)).
Proof. intros config; reflexivity. Qed.

Example createDriver_timeout_10000 :
  createDriver (local_config (Some 10000)) (fun k => Fails (refused k))
  <> Rejected 10000 (Some (refused 1)).
Proof. discriminate. Qed.

(** ** The HTTP filter *)

(** The two messages quoted in the source. *)
Example catch_duplicate :
  Neo4jErrorFilter_catch
    "Node(54776) already exists with label `User` and property `email` = 'duplicate@email.com'"
  = Ok {| statusCode := 400; message := ["email already taken"];
          error := "Bad Request" |}.
Proof. reflexivity. Qed.

Example catch_missing :
  Neo4jErrorFilter_catch
    "Node(54778) with label `Test` must have the property `mustExist`"
  = Ok {| statusCode := 400; message := ["mustExist should not be empty"];
          error := "Bad Request" |}.
Proof. reflexivity. Qed.

Example catch_other :
  Neo4jErrorFilter_catch "Invalid input 'RETRUN': expected 'RETURN'"
  = Ok {| statusCode := 500; message := [];
          error := "Internal Server Error" |}.
Proof. reflexivity. Qed.

(** What the filter does on every message. *)
Lemma Neo4jErrorFilter_catch_cases msg :
  let known := includes msg "already exists with"
               || includes msg "must have the property" in
  (known = false ->
   Neo4jErrorFilter_catch msg =
   Ok {| statusCode := 500; message := [];
         error := "Internal Server Error" |}) /\
  (known = true ->
   match second_identifier msg with
   | Ok id =>
       exists text,
         Neo4jErrorFilter_catch msg =
         Ok {| statusCode := 400; message := [text]; error := "Bad Request" |}
   | Throw e => Neo4jErrorFilter_catch msg = Throw e
   end).
Proof.
  unfold Neo4jErrorFilter_catch; cbv zeta.
  destruct (includes msg "already exists with");
    [| destruct (includes msg "must have the property")]; simpl.
  - split; [discriminate | intros _].
    destruct (second_identifier msg); simpl;
      [eexists; reflexivity | reflexivity].
  - split; [discriminate | intros _].
    destruct (second_identifier msg); simpl;
      [eexists; reflexivity | reflexivity].
  - split; [reflexivity | discriminate].
Qed.

(** C9 (as the code has it): the filter takes the second match of
    [/`([a-z0-9]+)`/gi].  An identifier with an underscore is no match, so
    on a uniqueness or required-property message whose label or property
    has one there is no second match, [matches[1]] is undefined and the
    filter throws a TypeError instead of answering 400; with no quoted
    identifier at all [matches] is null and it throws as well. *)
Theorem Neo4jErrorFilter_throws_on_known_message :
  Neo4jErrorFilter_catch
    "Node(7) already exists with label `User` and property `first_name` = 'Bob'"
    = Throw TypeError /\
  Neo4jErrorFilter_catch
    "Node(8) with label `User_Account` must have the property `email`"
    = Throw TypeError /\
  Neo4jErrorFilter_catch "An index already exists with that name"
    = Throw TypeError.
Proof. repeat split; reflexivity. Qed.

(** ** Multi-statement transactions *)

Section DriverFacts.
Variable DB : Type.
Variable execute : Statement -> DB -> exn + (QueryResult * DB).
Variable commit_error : DB -> option exn.

Lemma sent_all statements db results db' :
  run_all DB execute statements db = inr (results, db') ->
  sent DB execute statements db = statements.
Proof.
  revert db results db'; induction statements as [| s rest IH]; simpl;
    intros db results db'; [reflexivity |].
  destruct (execute s db) as [e | [result db1]]; [discriminate |].
  destruct (run_all DB execute rest db1) as [e | [rs db2]] eqn:E;
    [discriminate |].
  intros _; f_equal; eapply IH; eassumption.
Qed.

(** The loop over the statements, on an active transaction: the results in
    order when every statement succeeds; at the first failure the error of
    that statement, the later ones not sent, the transaction failed. *)
Lemma run_each_spec statements :
  forall results w,
    tx w = Some ACTIVE ->
    match run_all DB execute statements (pending w) with
    | inr (rs, db) =>
        run_each DB execute statements results w =
        (Ok (results ++ rs),
         mkWorld (stored w) db (Some ACTIVE) (closes w)
                 (trace w ++ map Ran statements))
    | inl e =>
        exists p,
          run_each DB execute statements results w =
          (Throw e,
           mkWorld (stored w) p (Some FAILED) (closes w)
                   (trace w ++ map Ran (sent DB execute statements (pending w))))
    end.
Proof.
  induction statements as [| s rest IH]; intros results w Hw.
  - cbn [run_all run_each map]; unfold ret.
    rewrite !app_nil_r; destruct w; simpl in *; subst; reflexivity.
  - cbn [run_all run_each sent]; unfold bindM, txc_run; rewrite Hw.
    destruct (execute s (pending w)) as [e | [result db1]].
    + exists (pending w); reflexivity.
    + specialize (IH (results ++ [result])
                     (mkWorld (stored w) db1 (Some ACTIVE) (closes w)
                              (log DB (Ran s) w)) eq_refl).
      cbn [pending stored closes trace] in IH; unfold log in *.
      destruct (run_all DB execute rest db1) as [e | [rs db2]].
      * destruct IH as [p IH]; exists p; rewrite IH.
        cbn [map]; rewrite <- app_assoc; reflexivity.
      * rewrite IH; cbn [map]; rewrite <- !app_assoc; reflexivity.
Qed.

(** C6: the statements run in order in one transaction of one session.
    When a statement fails, the later ones are not sent, the transaction is
    rolled back, the database is as before and the statement's error is
    what the caller gets; when all succeed and the commit is accepted, the
    database holds the effect of all of them and the caller gets the
    results in order; the session is closed exactly once either way, also
    when the commit is refused. *)
Theorem multipleStatementsRaw_transaction :
  forall (statements : list Statement) (w0 : world DB),
    let (r, w) := multipleStatementsRaw DB execute commit_error statements w0 in
    closes w = S (closes w0) /\
    match run_all DB execute statements (stored w0) with
    | inl e =>
        r = Throw e /\ stored w = stored w0 /\
        trace w =
        trace w0 ++ [SessionOpened; TxBegun]
                 ++ map Ran (sent DB execute statements (stored w0))
                 ++ [RolledBack; SessionClosed]
    | inr (results, db) =>
        match commit_error db with
        | None =>
            r = Ok results /\ stored w = db /\
            trace w =
            trace w0 ++ [SessionOpened; TxBegun] ++ map Ran statements
                     ++ [Committed; SessionClosed]
        | Some e =>
            r = Throw e /\ stored w = stored w0 /\
            trace w =
            trace w0 ++ [SessionOpened; TxBegun] ++ map Ran statements
                     ++ [RolledBack; SessionClosed]
        end
    end.
Proof.
  intros statements w0.
  unfold multipleStatementsRaw, bindM at 1 2, getWriteSession,
    beginTransaction, try_catch_finally, bindM at 1.
  cbn [stored pending tx closes trace].
  pose proof (run_each_spec statements []
                (mkWorld (stored w0) (stored w0) (Some ACTIVE) (closes w0)
                         (log DB TxBegun
                            (mkWorld (stored w0) (pending w0) (tx w0)
                                     (closes w0) (log DB SessionOpened w0))))
                eq_refl) as R.
  cbn [stored pending tx closes trace] in R.
  destruct (run_all DB execute statements (stored w0)) as [e | [rs db]].
  - destruct R as [p R]; rewrite R.
    unfold bindM, txc_rollback, throw, session_close, log;
      cbn [stored pending tx closes trace].
    repeat split; rewrite <- !app_assoc; reflexivity.
  - rewrite R.
    unfold bindM, txc_commit, txc_rollback, throw, ret, session_close, log;
      cbn [stored pending tx closes trace].
    destruct (commit_error db) as [e |];
      cbn [stored pending tx closes trace];
      repeat split; rewrite <- !app_assoc; reflexivity.
Qed.

(** [multipleStatements] leaves the driver as [multipleStatementsRaw] does
    and passes its error on. *)
Lemma multipleStatements_raw {driver : DriverText} statements w0 :
  snd (multipleStatements DB execute commit_error statements w0) =
  snd (multipleStatementsRaw DB execute commit_error statements w0) /\
  forall e,
    fst (multipleStatementsRaw DB execute commit_error statements w0) = Throw e ->
    fst (multipleStatements DB execute commit_error statements w0) = Throw e.
Proof.
  unfold multipleStatements, bindM.
  destruct (multipleStatementsRaw DB execute commit_error statements w0)
    as [[results | e] w]; simpl; split; try reflexivity;
    intros e' H; [discriminate H | injection H as ->; reflexivity].
Qed.

End DriverFacts.

(** [A, B] with [B] failing: nothing of [A] is kept. *)
Example multipleStatements_rollback :
  multipleStatementsRaw (list string) toy_execute (fun _ => None)
    [stmt "A"; stmt "B"; stmt "C"] (toy_world ["B"]) =
  (Throw (Neo4jError "B already exists"),
   mkWorld ["B"] ["B"] (Some FAILED) 1
           [SessionOpened; TxBegun; Ran (stmt "A"); Ran (stmt "B");
            RolledBack; SessionClosed]).
Proof. reflexivity. Qed.

Example multipleStatements_commit :
  multipleStatementsRaw (list string) toy_execute (fun _ => None)
    [stmt "A"; stmt "B"] (toy_world []) =
  (Ok [mkResult []; mkResult []],
   mkWorld ["A"; "B"] ["A"; "B"] (Some SUCCEEDED) 1
           [SessionOpened; TxBegun; Ran (stmt "A"); Ran (stmt "B");
            Committed; SessionClosed]).
Proof. reflexivity. Qed.

(* ================================================================== *)
(** * Further properties of the code *)

(** ** [convertValues] on data that is already normalized *)

Section NormalizedAgain.
Context {driver : DriverText}.

Lemma map_id_Forall {A} (f : A -> A) (l : list A) :
  Forall (fun a => f a = a) l -> map f l = l.
Proof.
  induction 1 as [| a rest Ha _ IH]; simpl; [reflexivity |].
  rewrite Ha, IH; reflexivity.
Qed.

Lemma convertValues_props_id (props : list (string * value)) :
  Forall (fun kv => convertValues (snd kv) = snd kv) props ->
  map (fun kv => (fst kv, convertValues (snd kv))) props = props.
Proof.
  intros H; apply map_id_Forall.
  eapply Forall_impl; [| exact H].
  intros [k v] E; simpl in *; rewrite E; reflexivity.
Qed.

Lemma convertValues_fixes_driver_free v :
  driver_free v = true -> convertValues v = v.
Proof.
  induction v as [| | b | n | s | elems IH | props IH | i | t | p
                  | identity labels properties elementId IH] using value_ind';
    try reflexivity; try discriminate; cbn [driver_free]; intros H.
  - rewrite convertValues_array; f_equal; apply map_id_Forall.
    rewrite forallb_forall in H; rewrite Forall_forall in *; auto.
  - rewrite convertValues_object; f_equal; apply convertValues_props_id.
    rewrite forallb_forall in H; rewrite Forall_forall in *; auto.
Qed.

(** X1: data without driver-native values (null, undefined, booleans,
    numbers, strings, arrays and objects of them) goes through
    [convertValues] unchanged, so converting twice is converting once. *)
Theorem convertValues_idempotent :
  (forall v, driver_free v = true -> convertValues v = v) /\
  (forall v, convertValues (convertValues v) = convertValues v).
Proof.
  split; [exact convertValues_fixes_driver_free |].
  intros v; apply convertValues_fixes_driver_free, convertValues_driver_free.
Qed.

End NormalizedAgain.

Lemma convertValues_idempotent_witness :
  convertValues (VArr [VObj [("n", VNum (NumInt 7)); ("u", VUndefined)]; VNull])
  = VArr [VObj [("n", VNum (NumInt 7)); ("u", VUndefined)]; VNull].
Proof.
  apply (proj1 (@convertValues_idempotent sample_driver)); reflexivity.
Defined.

(** ** [extractRecords] on records with distinct keys *)






Section ExtractExact.
Context {driver : DriverText}.



End ExtractExact.


(** ** More on [removeEmptyArrays] *)

Lemma collapse_record_object arrayKey checkKey props :
  collapse_record arrayKey checkKey (VObj props) =
  VObj (map (fun kv =>
               (fst kv,
                collapse_field arrayKey checkKey
                  (emptied_of arrayKey checkKey (VObj props))
                  (fst kv) (snd kv)))
            props).
Proof. reflexivity. Qed.

Lemma collapse_record_array arrayKey checkKey elems :
  collapse_record arrayKey checkKey (VArr elems) =
  VArr (map_i (fun i e =>
                 collapse_field arrayKey checkKey
                   (emptied_of arrayKey checkKey (VArr elems))
                   (index_key i) e)
              0%nat elems).
Proof. reflexivity. Qed.

Lemma collapse_record_leaf arrayKey checkKey v :
  isArray v = false -> (forall props, v <> VObj props) ->
  collapse_record arrayKey checkKey v = v.
Proof.
  destruct v; try reflexivity; [discriminate |].
  intros _ H; exfalso; eapply H; reflexivity.
Qed.

Lemma map_i_indexed (g : string -> value -> value) l :
  forall i,
    map_i (fun j e => g (index_key j) e) i l =
    map (fun kv => g (fst kv) (snd kv)) (indexed_from i l).
Proof.
  induction l as [| e rest IH]; intros i; [reflexivity |].
  cbn [indexed_from map fst snd]; rewrite <- IH; reflexivity.
Qed.

Lemma indexed_from_map (g : string -> value -> value) l :
  forall i,
    indexed_from i (map (fun kv => g (fst kv) (snd kv)) (indexed_from i l)) =
    map (fun kv => (fst kv, g (fst kv) (snd kv))) (indexed_from i l).
Proof.
  induction l as [| e rest IH]; intros i; [reflexivity |].
  cbn [indexed_from map fst snd]; rewrite IH; reflexivity.
Qed.

Lemma lookup_map_props (g : string -> value -> value) key props :
  lookup key (map (fun kv => (fst kv, g (fst kv) (snd kv))) props) =
  option_map (g key) (lookup key props).
Proof.
  induction props as [| [k v] rest IH]; [reflexivity |].
  cbn [map lookup fst snd].
  destruct (String.eqb_spec k key) as [-> | N]; [reflexivity | exact IH].
Qed.

(** The fields of a collapsed record, from those of the record. *)
Lemma field_collapse_record arrayKey checkKey r key :
  field (collapse_record arrayKey checkKey r) key =
  option_map
    (collapse_field arrayKey checkKey (emptied_of arrayKey checkKey r) key)
    (field r key)
  \/ collapse_record arrayKey checkKey r = r.
Proof.
  destruct r; try (right; reflexivity); left.
  - rewrite collapse_record_array; unfold field; cbn [own_props].
    unfold indexed.
    rewrite (map_i_indexed
               (collapse_field arrayKey checkKey
                  (emptied_of arrayKey checkKey (VArr elems)))).
    rewrite indexed_from_map; apply lookup_map_props.
  - rewrite collapse_record_object; unfold field; cbn [own_props].
    apply (lookup_map_props
             (collapse_field arrayKey checkKey
                (emptied_of arrayKey checkKey (VObj props)))).
Qed.

Lemma collapse_field_null arrayKey checkKey emptied key v :
  collapse_field arrayKey checkKey emptied key v = VNull -> v = VNull.
Proof.
  unfold collapse_field; destruct (emptied && _); [discriminate |].
  destruct v; try discriminate; reflexivity.
Qed.

(** A null field of a collapsed record was null before. *)
Lemma field_collapse_null arrayKey checkKey r key :
  field (collapse_record arrayKey checkKey r) key = Some VNull ->
  field r key = Some VNull.
Proof.
  destruct (field_collapse_record arrayKey checkKey r key) as [E | E];
    rewrite E; [| auto].
  destruct (field r key) as [w |]; simpl; [| discriminate].
  intros [= H]; apply collapse_field_null in H; subst; reflexivity.
Qed.

Lemma null_collection_collapse arrayKey checkKey elems :
  null_collection checkKey
    (VArr (map (collapse_record arrayKey checkKey) elems)) = true ->
  null_collection checkKey (VArr elems) = true.
Proof.
  destruct elems as [| first rest]; [discriminate |].
  cbn [map null_collection].
  destruct (field (collapse_record arrayKey checkKey first) checkKey)
    as [w |] eqn:F; [| discriminate].
  destruct w; try discriminate.
  rewrite (field_collapse_null _ _ _ _ F); reflexivity.
Qed.

(** After the collapse the guard finds nothing more to empty. *)
Lemma emptied_of_collapse arrayKey checkKey r :
  emptied_of arrayKey checkKey (collapse_record arrayKey checkKey r) = false
  \/ collapse_record arrayKey checkKey r = r.
Proof.
  destruct (field_collapse_record arrayKey checkKey r arrayKey) as [E | E];
    [left | right; exact E].
  unfold emptied_of at 1; rewrite E.
  destruct (field r arrayKey) as [a |] eqn:F; simpl; [| reflexivity].
  unfold collapse_field; rewrite String.eqb_refl, andb_true_r.
  destruct (emptied_of arrayKey checkKey r) eqn:Em; [reflexivity |].
  unfold emptied_of in Em; rewrite F in Em.
  destruct a; try exact Em.
  destruct (null_collection checkKey (VArr (map _ elems))) eqn:N;
    [| reflexivity].
  apply null_collection_collapse in N; congruence.
Qed.

Lemma collapse_field_again arrayKey checkKey emptied key v :
  (forall elems,
      v = VArr elems ->
      Forall (fun e => collapse_record arrayKey checkKey
                         (collapse_record arrayKey checkKey e)
                       = collapse_record arrayKey checkKey e) elems) ->
  collapse_field arrayKey checkKey false key
    (collapse_field arrayKey checkKey emptied key v)
  = collapse_field arrayKey checkKey emptied key v.
Proof.
  intros H; unfold collapse_field.
  destruct (emptied && String.eqb key arrayKey); cbn [andb];
    [reflexivity |].
  destruct v; try reflexivity.
  f_equal; rewrite map_map; apply map_ext_Forall, (H elems eq_refl).
Qed.

(** Collapsing twice is collapsing once. *)
Lemma collapse_record_idempotent arrayKey checkKey r :
  collapse_record arrayKey checkKey (collapse_record arrayKey checkKey r)
  = collapse_record arrayKey checkKey r.
Proof.
  induction r as [props IH | l IH | v Hv Hv'] using array_fields_ind.
  - destruct (emptied_of_collapse arrayKey checkKey (VObj props)) as [E | E];
      [| rewrite !E; reflexivity].
    rewrite (collapse_record_object _ _ props) in *.
    rewrite collapse_record_object, E; f_equal.
    rewrite map_map; apply map_ext_Forall.
    eapply Forall_impl; [| exact IH].
    intros [k v] Hkv; cbn [fst snd] in *.
    rewrite (collapse_field_again _ _ _ _ _ Hkv); reflexivity.
  - destruct (emptied_of_collapse arrayKey checkKey (VArr l)) as [E | E];
      [| rewrite !E; reflexivity].
    rewrite (collapse_record_array _ _ l) in *.
    rewrite collapse_record_array, E; f_equal; clear E.
    generalize (emptied_of arrayKey checkKey (VArr l)); intros emptied.
    generalize 0%nat.
    induction IH as [| v rest Hv _ IHrest]; intros i; [reflexivity |].
    cbn [map_i]; rewrite (collapse_field_again _ _ _ _ _ Hv), IHrest.
    reflexivity.
  - rewrite (collapse_record_leaf _ _ v Hv Hv'); apply collapse_record_leaf;
      assumption.
Qed.

Lemma map_outcome_i_inv {A B} (f : nat -> A -> outcome B) l :
  forall i bs,
    map_outcome_i f i l = Ok bs ->
    Forall2 (fun a b => exists j, f j a = Ok b) l bs.
Proof.
  induction l as [| a rest IH]; intros i bs.
  - intros [= <-]; constructor.
  - rewrite map_outcome_i_cons.
    destruct (f i a) as [b |] eqn:Ea; cbn [bind]; [| discriminate].
    destruct (map_outcome_i f (S i) rest) as [bs' |] eqn:Er; cbn [bind];
      [| discriminate].
    intros [= <-]; constructor; [exists i; exact Ea | eapply IH, Er].
Qed.

Lemma map_outcome_fixed {A} (f : A -> outcome A) l :
  Forall (fun a => f a = Ok a) l -> map_outcome f l = Ok l.
Proof.
  induction 1 as [| a rest Ha _ IH]; [reflexivity |].
  rewrite map_outcome_cons, Ha, IH; reflexivity.
Qed.

Section Again.
Variables arrayKey checkKey : string.

(** What [visit] hands back can be visited again. *)
Lemma visit_again emptied v w :
  (forall elems,
      v = VArr elems ->
      Forall (fun e => forall e',
                  removeEmptyArrays_at arrayKey checkKey e = Ok e' ->
                  exists out,
                    removeEmptyArrays_at arrayKey checkKey e' = Ok out)
             elems) ->
  visit (map_outcome (removeEmptyArrays_at arrayKey checkKey)) emptied v
    = Ok w ->
  forall elems',
    w = VArr elems' ->
    Forall (fun e' => exists out,
                removeEmptyArrays_at arrayKey checkKey e' = Ok out)
           elems'.
Proof.
  intros H; unfold visit; destruct emptied.
  - intros [= <-] elems' [= <-]; constructor.
  - destruct v; try (intros [= <-]; discriminate).
    destruct (map_outcome _ elems) as [elems0 |] eqn:E; cbn [bind];
      [| discriminate].
    intros [= <-] elems' [= <-].
    apply map_outcome_inv in E; specialize (H elems eq_refl).
    rewrite Forall_forall in *; intros e' He'.
    destruct (Forall2_In_r_inv _ _ _ _ E He') as [e [He Ee]].
    exact (H e He e' Ee).
Qed.

(** The result of an iteration can be iterated on again. *)
Lemma removeEmptyArrays_at_again record :
  forall record',
    removeEmptyArrays_at arrayKey checkKey record = Ok record' ->
    exists out, removeEmptyArrays_at arrayKey checkKey record' = Ok out.
Proof.
  induction record as [props IH | l IH | v Hv Hv'] using array_fields_ind;
    intros record'.
  - cbn [removeEmptyArrays_at].
    destruct (map_outcome _ props) as [props' |] eqn:M; cbn [bind];
      [| discriminate].
    intros [= <-]; cbn [removeEmptyArrays_at].
    apply map_outcome_inv in M.
    match goal with |- context [map_outcome ?f props'] =>
      destruct (map_outcome_total f props') as [out E] end.
    + rewrite Forall_forall in *; intros kv' Hkv'.
      destruct (Forall2_In_r_inv _ _ _ _ M Hkv') as [kv [Hkv G]].
      destruct (visit _ _ (snd kv)) as [w |] eqn:V; cbn [bind] in G;
        [| discriminate].
      injection G as <-; cbn [fst snd].
      match goal with |- context [visit ?r ?b w] =>
        destruct (visit_total arrayKey checkKey b w) as [w' ->] end.
      * intros elems' ->.
        eapply (visit_again _ _ _ (IH kv Hkv) V); reflexivity.
      * cbn [bind]; eexists; reflexivity.
    + rewrite E; cbn [bind]; eexists; reflexivity.
  - cbn [removeEmptyArrays_at].
    destruct (map_outcome_i _ 0%nat l) as [l' |] eqn:M; cbn [bind];
      [| discriminate].
    intros [= <-]; cbn [removeEmptyArrays_at].
    apply map_outcome_i_inv in M.
    match goal with |- context [map_outcome_i ?f 0%nat l'] =>
      destruct (map_outcome_i_total f l') with (i := 0%nat) as [out E] end.
    + rewrite Forall_forall in *; intros w Hw i.
      destruct (Forall2_In_r_inv _ _ _ _ M Hw) as [v [Hv [j V]]].
      apply visit_total.
      intros elems' ->.
      eapply (visit_again _ _ _ (IH v Hv) V); reflexivity.
    + rewrite E; cbn [bind]; eexists; reflexivity.
  - destruct v; try discriminate; try (intros [= <-]; eexists; reflexivity).
    exfalso; eapply Hv'; reflexivity.
Qed.

End Again.

(** X3: cleaning twice is cleaning once: on what [removeEmptyArrays] has
    returned, a second call with the same keys returns it unchanged. *)
Theorem removeEmptyArrays_idempotent :
  forall arrayKey checkKey data out,
    removeEmptyArrays arrayKey checkKey data = Ok out ->
    removeEmptyArrays arrayKey checkKey out = Ok out.
Proof.
  intros arrayKey checkKey data out E; unfold removeEmptyArrays in *.
  apply map_outcome_inv in E.
  apply map_outcome_fixed, Forall_forall; intros r' Hr'.
  destruct (Forall2_In_r_inv _ _ _ _ E Hr') as [r [_ Er]].
  destruct (removeEmptyArrays_at_again arrayKey checkKey r r' Er) as [o Eo].
  rewrite Eo; f_equal.
  apply removeEmptyArrays_at_refines in Eo, Er; subst.
  apply collapse_record_idempotent.
Qed.

(** The second element of [friends] is null, yet nothing throws: the array
    is emptied before it is descended into, and stays empty. *)
Lemma removeEmptyArrays_idempotent_witness :
  removeEmptyArrays "friends" "name"
    [VObj [("friends", VArr []); ("tags", VArr [VStr "a"])]]
  = Ok [VObj [("friends", VArr []); ("tags", VArr [VStr "a"])]].
Proof.
  apply (removeEmptyArrays_idempotent "friends" "name"
           [VObj [("friends", VArr [VObj [("name", VNull)]; VNull]);
                  ("tags", VArr [VStr "a"])]]).
  reflexivity.
Defined.

(** *** What [removeEmptyArrays] leaves alone *)

Lemma Forall2_map_r {A B} (R : A -> B -> Prop) (f : A -> B) l :
  Forall (fun a => R a (f a)) l -> Forall2 R l (map f l).
Proof. induction 1; simpl; constructor; assumption. Qed.

Lemma lookup_NoDup_In props key v :
  NoDup (keys_of props) -> In (key, v) props -> lookup key props = Some v.
Proof.
  induction props as [| [k w] rest IH]; simpl; intros Hnd Hin; [tauto |].
  inversion Hnd as [| ? ? Hk Hr]; subst.
  destruct Hin as [[= -> ->] | Hin].
  - rewrite String.eqb_refl; reflexivity.
  - destruct (String.eqb_spec k key) as [-> | N]; [| apply IH; assumption].
    exfalso; apply Hk; apply (in_map fst) in Hin; exact Hin.
Qed.

Lemma NoDup_indexed l : forall i, NoDup (keys_of (indexed_from i l)).
Proof.
  induction l as [| e rest IH]; intros i; simpl; constructor; [| apply IH].
  intros H; apply indexed_from_keys_lt in H; destruct H as [j [Hj Ej]].
  apply index_key_inj in Ej; lia.
Qed.

Lemma Forall2_indexed (R : value -> value -> Prop)
    (g : string -> value -> value) l :
  forall i,
    (forall kv, In kv (indexed_from i l) -> R (snd kv) (g (fst kv) (snd kv))) ->
    Forall2 R l (map (fun kv => g (fst kv) (snd kv)) (indexed_from i l)).
Proof.
  induction l as [| e rest IH]; intros i H; simpl; constructor.
  - apply (H (index_key i, e)); left; reflexivity.
  - apply IH; intros kv Hkv; apply H; right; exact Hkv.
Qed.

Lemma null_collection_array checkKey a :
  null_collection checkKey a = true -> isArray a = true.
Proof. destruct a; try discriminate; reflexivity. Qed.

(** Among distinct keys, only the array under [arrayKey] can be emptied. *)
Lemma collapse_field_kept arrayKey checkKey props key v :
  NoDup (keys_of props) -> In (key, v) props ->
  field_kept v
    (collapse_field arrayKey checkKey
       (match lookup arrayKey props with
        | Some a => null_collection checkKey a
        | None => false
        end) key v).
Proof.
  intros Hnd Hin; unfold field_kept, collapse_field.
  destruct (isArray v) eqn:A.
  - destruct (_ && _); [reflexivity |].
    destruct v; try discriminate; reflexivity.
  - destruct (String.eqb_spec key arrayKey) as [-> | N];
      [| rewrite andb_false_r; destruct v; try reflexivity; discriminate].
    rewrite (lookup_NoDup_In _ _ _ Hnd Hin), andb_true_r.
    destruct (null_collection checkKey v) eqn:N;
      [| destruct v; try reflexivity; discriminate].
    apply null_collection_array in N; congruence.
Qed.

Lemma collapse_record_kept arrayKey checkKey r :
  distinct_keys r -> record_kept r (collapse_record arrayKey checkKey r).
Proof.
  destruct r; try reflexivity; intros Hnd.
  - rewrite collapse_record_array; cbn [record_kept].
    eexists; split; [reflexivity |].
    rewrite (map_i_indexed
               (collapse_field arrayKey checkKey
                  (emptied_of arrayKey checkKey (VArr elems)))).
    apply Forall2_indexed; intros [k v] Hkv; cbn [fst snd].
    apply (collapse_field_kept arrayKey checkKey (indexed_from 0 elems) k v);
      [apply NoDup_indexed | exact Hkv].
  - rewrite collapse_record_object; cbn [record_kept].
    eexists; split; [reflexivity |].
    apply Forall2_map_r, Forall_forall; intros [k v] Hkv; cbn [fst snd].
    split; [reflexivity |].
    apply (collapse_field_kept arrayKey checkKey props k v Hnd Hkv).
Qed.

(** X4: [removeEmptyArrays] drops no record and no property and renames
    none: every record comes back with the same keys in the same order;
    a value that is not an array (a scalar, null, a nested object with all
    that is in it) comes back as it was, and an array comes back as an
    array. *)
Theorem removeEmptyArrays_keeps_shape :
  forall arrayKey checkKey data out,
    Forall distinct_keys data ->
    removeEmptyArrays arrayKey checkKey data = Ok out ->
    Forall2 record_kept data out.
Proof.
  intros arrayKey checkKey data out Hnd E.
  rewrite (removeEmptyArrays_refines _ _ _ _ E).
  apply Forall2_map_r.
  eapply Forall_impl; [| exact Hnd].
  intros r; apply collapse_record_kept.
Qed.

(** The array inside the nested object [address] is not cleaned. *)
Lemma removeEmptyArrays_keeps_shape_witness :
  Forall2 record_kept
    [VObj [("name", VStr "Alex");
           ("address", VObj [("friends", VArr [VObj [("name", VNull)]])]);
           ("friends", VArr [VObj [("name", VNull)]])]]
    [VObj [("name", VStr "Alex");
           ("address", VObj [("friends", VArr [VObj [("name", VNull)]])]);
           ("friends", VArr [])]].
Proof.
  apply (removeEmptyArrays_keeps_shape "friends" "name").
  - repeat constructor; simpl; intuition discriminate.
  - reflexivity.
Defined.

(** *** Plain data stays plain *)

Lemma collapse_field_plain arrayKey checkKey emptied key v :
  plain v = true ->
  (forall elems,
      v = VArr elems ->
      Forall (fun e => plain e = true ->
                       plain (collapse_record arrayKey checkKey e) = true)
             elems) ->
  plain (collapse_field arrayKey checkKey emptied key v) = true.
Proof.
  intros Hp H; unfold collapse_field.
  destruct (_ && _); [reflexivity |].
  destruct v; try exact Hp.
  cbn [plain] in *; apply forallb_map_Forall.
  specialize (H elems eq_refl).
  rewrite forallb_forall in Hp; rewrite Forall_forall in *; auto.
Qed.

Lemma collapse_record_plain arrayKey checkKey r :
  plain r = true -> plain (collapse_record arrayKey checkKey r) = true.
Proof.
  induction r as [props IH | l IH | v Hv Hv'] using array_fields_ind;
    intros Hp.
  - rewrite collapse_record_object; cbn [plain] in *.
    apply forallb_map_Forall
      with (p := fun kv : string * value => plain (snd kv)).
    rewrite forallb_forall in Hp; rewrite Forall_forall in *.
    intros kv Hkv; cbn [snd].
    apply collapse_field_plain; [apply Hp, Hkv |].
    intros elems Ee; exact (IH kv Hkv elems Ee).
  - rewrite collapse_record_array; cbn [plain] in *.
    rewrite (map_i_indexed
               (collapse_field arrayKey checkKey
                  (emptied_of arrayKey checkKey (VArr l)))).
    apply forallb_map_Forall.
    rewrite forallb_forall in Hp; rewrite Forall_forall in *.
    intros [k v] Hkv; cbn [fst snd].
    apply indexed_from_In in Hkv; destruct Hkv as [j [_ [_ Hn]]].
    apply nth_error_In in Hn.
    apply collapse_field_plain; [apply Hp, Hn |].
    intros elems Ee; exact (IH v Hn elems Ee).
  - rewrite (collapse_record_leaf _ _ v Hv Hv'); exact Hp.
Qed.

(** X5: on plain data (null, numbers, strings, booleans, arrays and objects
    of them) what [removeEmptyArrays] returns is plain data again: the
    cleanup can follow [extractRecords] without bringing anything else in. *)
Theorem removeEmptyArrays_plain :
  forall arrayKey checkKey data out,
    plain (VArr data) = true ->
    removeEmptyArrays arrayKey checkKey data = Ok out ->
    plain (VArr out) = true.
Proof.
  intros arrayKey checkKey data out Hp E.
  rewrite (removeEmptyArrays_refines _ _ _ _ E).
  cbn [plain] in *; unfold collapseNullCollections.
  apply forallb_map_Forall.
  rewrite forallb_forall in Hp; apply Forall_forall.
  intros r Hr; apply collapse_record_plain, Hp, Hr.
Qed.

Lemma removeEmptyArrays_plain_witness :
  plain (VArr [VObj [("name", VStr "Alex");
                     ("address", VObj [("ZIP", VStr "10178");
                                       ("town", VStr "Berlin")]);
                     ("friends", VArr [])]]) = true.
Proof.
  apply (removeEmptyArrays_plain "friends" "name" alex_with_no_friends);
    reflexivity.
Defined.

(** *** A key that does not occur *)








(** ** The bootstrap: which attempt decides *)








(** ** The filter on the messages of Neo4j *)

Lemma string_app_assoc (a b c : string) :
  ((a ++ b) ++ c)%string = (a ++ (b ++ c))%string.
Proof. induction a as [| x a IH]; simpl; [| rewrite IH]; reflexivity. Qed.

Lemma string_app_nil_r (a : string) : (a ++ EmptyString)%string = a.
Proof. induction a as [| x a IH]; simpl; [| rewrite IH]; reflexivity. Qed.

Lemma is_alnum_not_backtick c :
  is_alnum c = true -> Ascii.eqb c backtick = false.
Proof.
  intros H; destruct (Ascii.eqb_spec c backtick) as [-> | _];
    [discriminate | reflexivity].
Qed.

Lemma all_alnum_snoc r c :
  all_alnum r = true -> is_alnum c = true ->
  all_alnum (r ++ String c EmptyString) = true.
Proof.
  induction r as [| x r IH]; simpl; intros Hr Hc.
  - rewrite Hc; reflexivity.
  - apply andb_prop in Hr; destruct Hr as [Hx Hr].
    rewrite Hx, (IH Hr Hc); reflexivity.
Qed.

(** Text without a backtick starts no match. *)
Lemma scan_skip pre s :
  no_backtick pre = true -> scan (pre ++ s) None = scan s None.
Proof.
  induction pre as [| c pre IH]; simpl; intros H; [reflexivity |].
  apply andb_prop in H; destruct H as [Hc Hp].
  destruct (Ascii.eqb c backtick); [discriminate | apply IH, Hp].
Qed.

(** Letters and digits after a backtick extend the attempt. *)
Lemma scan_run id :
  forall r s,
    all_alnum id = true ->
    scan (id ++ s) (Some r) = scan s (Some (r ++ id)%string).
Proof.
  induction id as [| c id IH]; simpl; intros r s H.
  - rewrite string_app_nil_r; reflexivity.
  - apply andb_prop in H; destruct H as [Hc Hi].
    rewrite Hc, (IH _ _ Hi), string_app_assoc; reflexivity.
Qed.

Lemma scan_quoted id s :
  all_alnum id = true -> id <> EmptyString ->
  scan (quoted id ++ s) None = quoted id :: scan s None.
Proof.
  intros Ha Hn; unfold quoted.
  change (String backtick (id ++ String backtick EmptyString) ++ s)%string
    with (String backtick ((id ++ String backtick EmptyString) ++ s))%string.
  rewrite string_app_assoc.
  change (scan (String backtick (id ++ String backtick EmptyString ++ s)) None)
    with (scan (id ++ String backtick s) (Some EmptyString)).
  rewrite (scan_run id _ _ Ha).
  change (EmptyString ++ id)%string with id.
  destruct id as [| c id]; [congruence |].
  reflexivity.
Qed.

Lemma strip_backticks_alnum id s :
  all_alnum id = true ->
  strip_backticks (id ++ s) = (id ++ strip_backticks s)%string.
Proof.
  induction id as [| c id IH]; simpl; intros H; [reflexivity |].
  apply andb_prop in H; destruct H as [Hc Hi].
  rewrite (is_alnum_not_backtick c Hc), (IH Hi); reflexivity.
Qed.

Lemma strip_backticks_quoted id :
  all_alnum id = true -> strip_backticks (quoted id) = id.
Proof.
  intros H; unfold quoted.
  change (strip_backticks (String backtick (id ++ String backtick EmptyString)))
    with (strip_backticks (id ++ String backtick EmptyString)).
  rewrite (strip_backticks_alnum id _ H); apply string_app_nil_r.
Qed.

Lemma second_identifier_two pre label mid property post :
  no_backtick pre = true ->
  all_alnum label = true -> label <> EmptyString ->
  no_backtick mid = true ->
  all_alnum property = true -> property <> EmptyString ->
  second_identifier (two_identifiers pre label mid property post)
  = Ok property.
Proof.
  intros Hpre Hl Hl' Hmid Hp Hp'.
  unfold second_identifier, match_identifiers, two_identifiers.
  rewrite (scan_skip pre _ Hpre), (scan_quoted label _ Hl Hl'),
    (scan_skip mid _ Hmid), (scan_quoted property _ Hp Hp').
  rewrite (strip_backticks_quoted property Hp); reflexivity.
Qed.

(** X9: on a message whose first two backticked words are a label and a
    property name made of letters and digits, the filter answers and does
    not throw: 400 with the property name (the second of the two) and
    ["already taken"] or ["should not be empty"] after the phrase found in
    the message, the first phrase winning when both occur; 500 with no
    message when neither does.  What follows the property name is free. *)
Theorem Neo4jErrorFilter_names_the_property :
  forall pre label mid property post,
    no_backtick pre = true ->
    all_alnum label = true -> label <> EmptyString ->
    no_backtick mid = true ->
    all_alnum property = true -> property <> EmptyString ->
    Neo4jErrorFilter_catch (two_identifiers pre label mid property post) =
    Ok (if includes (two_identifiers pre label mid property post)
                    "already exists with"
        then bad_request (property ++ " already taken")
        else if includes (two_identifiers pre label mid property post)
                         "must have the property"
        then bad_request (property ++ " should not be empty")
        else internal_server_error).
Proof.
  intros pre label mid property post Hpre Hl Hl' Hmid Hp Hp'.
  unfold Neo4jErrorFilter_catch.
  rewrite (second_identifier_two pre label mid property post
             Hpre Hl Hl' Hmid Hp Hp').
  destruct (includes _ "already exists with"); [reflexivity |].
  destruct (includes _ "must have the property"); reflexivity.
Qed.

Lemma Neo4jErrorFilter_names_the_property_witness :
  Neo4jErrorFilter_catch
    "Node(54778) with label `Test` must have the property `mustExist` (`x y`)"
  = Ok (bad_request "mustExist should not be empty").
Proof.
  apply (Neo4jErrorFilter_names_the_property
           "Node(54778) with label " "Test" " must have the property "
           "mustExist" " (`x y`)");
    try reflexivity; discriminate.
Defined.

(** Every match is a quoted word of letters and digits. *)
Lemma scan_matches s :
  forall run,
    (forall r, run = Some r -> all_alnum r = true) ->
    Forall (fun m => exists id,
                m = quoted id /\ all_alnum id = true /\ id <> EmptyString)
           (scan s run).
Proof.
  induction s as [| c s IH]; intros run Hrun; cbn [scan]; [constructor |].
  destruct run as [r |].
  - destruct (is_alnum c) eqn:A.
    + apply IH; intros r' [= <-].
      apply all_alnum_snoc; [apply Hrun; reflexivity | exact A].
    + destruct (Ascii.eqb c backtick);
        [| apply IH; intros ? [=]].
      destruct r as [| x r]; [apply IH; intros ? [= <-]; reflexivity |].
      constructor; [| apply IH; intros ? [=]].
      exists (String x r); repeat split;
        [apply Hrun; reflexivity | discriminate].
  - destruct (Ascii.eqb c backtick); apply IH;
      [intros ? [= <-]; reflexivity | intros ? [=]].
Qed.

Lemma includes_prefix s sub : String.prefix sub s = true -> includes s sub = true.
Proof. intros H; destruct s; simpl in *; rewrite H; reflexivity. Qed.

Lemma includes_tail c s sub : includes s sub = true -> includes (String c s) sub = true.
Proof.
  intros H; cbn [includes].
  destruct (String.prefix sub (String c s)); [reflexivity | exact H].
Qed.

Lemma includes_app_l p s sub :
  includes s sub = true -> includes (p ++ s) sub = true.
Proof.
  intros H; induction p as [| c p IH]; [exact H |].
  apply includes_tail, IH.
Qed.

Lemma prefix_app m s : String.prefix m (m ++ s) = true.
Proof.
  induction m as [| c m IH]; simpl; [destruct s; reflexivity |].
  destruct (ascii_dec c c); [exact IH | congruence].
Qed.

(** Every match is a piece of the text scanned. *)
Lemma scan_includes m s :
  forall run,
    In m (scan s run) ->
    includes (match run with
              | None => s
              | Some r => String backtick (r ++ s)
              end) m = true.
Proof.
  induction s as [| c s IH]; intros run; cbn [scan]; [intros [] |].
  destruct run as [r |].
  - destruct (is_alnum c) eqn:A.
    + intros H; apply IH in H.
      rewrite string_app_assoc in H; exact H.
    + destruct (Ascii.eqb_spec c backtick) as [-> | N].
      * destruct r as [| x r].
        -- intros H; apply IH in H; apply includes_tail; exact H.
        -- intros [<- | H].
           ++ apply includes_prefix.
              change (String backtick (String x r ++ String backtick s))%string
                with (String backtick (String x r)
                        ++ String backtick EmptyString ++ s)%string.
              rewrite <- string_app_assoc; apply prefix_app.
           ++ apply IH in H.
              change (String backtick (String x r ++ String backtick s))%string
                with (String backtick (String x r)
                        ++ String backtick EmptyString ++ s)%string.
              rewrite <- string_app_assoc; apply includes_app_l; exact H.
      * intros H; apply IH in H.
        apply (includes_app_l
                 (String backtick (r ++ String c EmptyString))) in H.
        change (String backtick (r ++ String c EmptyString) ++ s)%string
          with (String backtick ((r ++ String c EmptyString) ++ s))%string in H.
        rewrite string_app_assoc in H; exact H.
  - destruct (Ascii.eqb_spec c backtick) as [-> | N]; intros H; apply IH in H.
    + exact H.
    + apply includes_tail; exact H.
Qed.

Lemma second_identifier_inv msg id :
  second_identifier msg = Ok id ->
  all_alnum id = true /\ id <> EmptyString /\
  includes msg (quoted id) = true.
Proof.
  unfold second_identifier, match_identifiers.
  pose proof (scan_matches msg None ltac:(intros ? [=])) as F.
  pose proof (fun m => scan_includes m msg None) as I; cbn beta iota in I.
  destruct (scan msg None) as [| m0 [| m1 rest]]; try discriminate.
  intros [= <-].
  apply Forall_inv_tail, Forall_inv in F; destruct F as [x [E [Ha Hn]]].
  specialize (I m1 (or_intror (or_introl eq_refl))); subst m1.
  rewrite (strip_backticks_quoted x Ha); repeat split; assumption.
Qed.

(** X10: a 400 of the filter always names an identifier: a non-empty word
    of letters and digits that stands between backticks in the message,
    followed by ["already taken"] or ["should not be empty"]; the body has
    this one message and the error ["Bad Request"]. *)
Theorem Neo4jErrorFilter_bad_request :
  forall msg resp,
    Neo4jErrorFilter_catch msg = Ok resp ->
    statusCode resp = BAD_REQUEST ->
    exists id,
      all_alnum id = true /\ id <> EmptyString /\
      includes msg (quoted id) = true /\
      (resp = bad_request (id ++ " already taken") \/
       resp = bad_request (id ++ " should not be empty")).
Proof.
  intros msg resp; unfold Neo4jErrorFilter_catch.
  destruct (includes msg "already exists with");
    [| destruct (includes msg "must have the property")];
    try (intros [= <-]; discriminate);
    destruct (second_identifier msg) as [id | e] eqn:E; try discriminate;
    cbn [bind]; intros [= <-] _;
    destruct (second_identifier_inv msg id E) as [Ha [Hn Hi]];
    exists id; repeat split; auto.
Qed.

Lemma Neo4jErrorFilter_bad_request_witness :
  exists id,
    all_alnum id = true /\ id <> EmptyString /\
    includes
      "Node(54776) already exists with label `User` and property `email` = 'a@b.c'"
      (quoted id) = true /\
    (bad_request "email already taken" = bad_request (id ++ " already taken") \/
     bad_request "email already taken"
     = bad_request (id ++ " should not be empty")).
Proof.
  apply (Neo4jErrorFilter_bad_request
           "Node(54776) already exists with label `User` and property `email` = 'a@b.c'"
           (bad_request "email already taken"));
    reflexivity.
Defined.

(** ** [multipleStatements]: the transaction, then the extraction *)

Section Extracted.
Variable DB : Type.
Variable execute : Statement -> DB -> exn + (QueryResult * DB).
Variable commit_error : DB -> option exn.
Context {driver : DriverText}.





End Extracted.


(** ** Driver integers are told apart *)

Section IntegersApart.
Context {driver : DriverText}.

(** X12: the conversion loses nothing on integers: two driver integers
    that [convertValues] turns into the same value (the same number, or the
    same numeral) are the same integer. *)
Theorem convertValues_integer_injective :
  forall a b : Integer.t,
    Integer.wf a -> Integer.wf b ->
    convertValues (VInt a) = convertValues (VInt b) ->
    a = b.
Proof.
  intros a b Ha Hb; cbn [convertValues is_null isInt].
  destruct (Integer.inSafeRange a), (Integer.inSafeRange b);
    intros [= E]; apply (IntegerFacts.signed_inj a b Ha Hb).
  - rewrite <- !IntegerFacts.toNumber_signed by assumption; exact E.
  - pose proof (IntegerFacts.parse_toString a) as Pa.
    rewrite E, IntegerFacts.parse_toString in Pa.
    injection Pa as ->; reflexivity.
Qed.

End IntegersApart.

Lemma convertValues_integer_injective_witness :
  Integer.of_Z (-9007199254740993) = Integer.mk (-1) (-2097153).
Proof.
  apply (@convertValues_integer_injective sample_driver);
    [apply IntegerFacts.of_Z_wf | split; vm_compute; split; congruence
    | reflexivity].
Defined.
